(** * Encode_Image.py: latent encoding and latent blending

    A shallow embedding of [src/Encode_Image.py].

    Numbers.  The tensors of the source hold floats.  They are modelled as
    ideal real numbers extended with the exceptional values of IEEE-754:
    [Fin r] is a finite value, [Inf neg] an infinity (negative when [neg]
    holds) and [NaN] not-a-number.  The exceptional cases follow IEEE-754
    (0/0 = NaN, x/0 = +-inf, NaN propagates, acos outside [-1,1] is NaN).
    The operations on [ext] are exact real arithmetic; section "Float32
    arithmetic" adds rounding to float32 on top of them, and [weighted_slerp]
    and [gaussian_rbf] are also given in float32 ([weighted_slerp_in
    f32_arith], [gaussian_rbf32]).  Python floats that never become tensors
    (weights, epsilon) are reals.

    Tensors.  A tensor is its shape together with its last-axis fibres
    ("rows", in row-major order).  Operations along [dim=-1] work row by
    row; elementwise operations work on tensors of equal shape (torch's
    broadcasting between different shapes is not modelled).

    Effects.  The [model] object is mutable: the encoders switch the
    precision of its VAE.  Functions that receive the model run in a small
    state and exception monad [PyM]; a failed [assert] raises
    [AssertionError] (the "InvalidArgument" of the specification). *)

From Stdlib Require Import Reals Lra Lia String Bool Arith List ZArith.
Import ListNotations.
Open Scope R_scope.
Open Scope string_scope.
Open Scope list_scope.

(** ** Extended reals *)

Inductive ext : Type :=
| Fin (r : R)
| Inf (neg : bool)
| NaN.

Definition is_neg (r : R) : bool := if Rlt_dec r 0 then true else false.

Definition ext_add (a b : ext) : ext :=
  match a, b with
  | Fin x, Fin y => Fin (x + y)
  | Fin _, Inf s | Inf s, Fin _ => Inf s
  | Inf s, Inf s' => if Bool.eqb s s' then Inf s else NaN
  | _, _ => NaN
  end.

Definition ext_neg (a : ext) : ext :=
  match a with
  | Fin x => Fin (- x)
  | Inf s => Inf (negb s)
  | NaN => NaN
  end.

Definition ext_sub (a b : ext) : ext := ext_add a (ext_neg b).

Definition ext_mul (a b : ext) : ext :=
  match a, b with
  | Fin x, Fin y => Fin (x * y)
  | Fin x, Inf s | Inf s, Fin x =>
      if Req_EM_T x 0 then NaN else Inf (xorb s (is_neg x))
  | Inf s, Inf s' => Inf (xorb s s')
  | _, _ => NaN
  end.

(** Division by an (unsigned) zero is taken as division by +0. *)
Definition ext_div (a b : ext) : ext :=
  match a, b with
  | Fin x, Fin y =>
      if Req_EM_T y 0 then (if Req_EM_T x 0 then NaN else Inf (is_neg x))
      else Fin (x / y)
  | Fin _, Inf _ => Fin 0
  | Inf s, Fin y => Inf (xorb s (is_neg y))
  | _, _ => NaN
  end.

(** [x ** 2]. *)
Definition ext_sq (a : ext) : ext := ext_mul a a.

Definition ext_sqrt (a : ext) : ext :=
  match a with
  | Fin x => if Rlt_dec x 0 then NaN else Fin (sqrt x)
  | Inf false => Inf false
  | _ => NaN
  end.

Definition ext_acos (a : ext) : ext :=
  match a with
  | Fin x => if Rle_dec (-1) x then (if Rle_dec x 1 then Fin (acos x) else NaN) else NaN
  | _ => NaN
  end.

Definition ext_sin (a : ext) : ext :=
  match a with
  | Fin x => Fin (sin x)
  | _ => NaN
  end.

Definition ext_exp (a : ext) : ext :=
  match a with
  | Fin x => Fin (exp x)
  | Inf false => Inf false
  | Inf true => Fin 0
  | NaN => NaN
  end.

(** [torch.sum] over a fibre. *)
Definition ext_sum (l : list ext) : ext := fold_left ext_add l (Fin 0).

(** ** Tensors *)

Record tensor : Type := mkT { shape : list nat; rows : list (list ext) }.

Fixpoint zipw {A B C : Type} (f : A -> B -> C) (l1 : list A) (l2 : list B) : list C :=
  match l1, l2 with
  | a :: l1', b :: l2' => f a b :: zipw f l1' l2'
  | _, _ => []
  end.

Definition map_t (f : ext -> ext) (t : tensor) : tensor :=
  mkT (shape t) (map (map f) (rows t)).

(** Elementwise [t1 op t2] on tensors of equal shape. *)
Definition zip_t (f : ext -> ext -> ext) (t1 t2 : tensor) : tensor :=
  mkT (shape t1) (zipw (zipw f) (rows t1) (rows t2)).

Definition add_t := zip_t ext_add.
Definition mul_t := zip_t ext_mul.

(** [t * w] for a Python float [w]. *)
Definition scale (t : tensor) (w : R) : tensor := map_t (fun x => ext_mul x (Fin w)) t.

Definition zeros_like (t : tensor) : tensor := map_t (fun _ => Fin 0) t.

(** Reductions along [dim=-1] with [keepdim=True]: one value per row. *)
Definition norm_lastdim (t : tensor) : list ext :=
  map (fun r => ext_sqrt (ext_sum (map ext_sq r))) (rows t).

Definition sum_lastdim (t : tensor) : list ext := map ext_sum (rows t).

(** Broadcasting of a [keepdim] column against a tensor. *)
Definition div_keepdim (t : tensor) (c : list ext) : tensor :=
  mkT (shape t) (zipw (fun r n => map (fun x => ext_div x n) r) (rows t) c).

Definition mul_keepdim (c : list ext) (t : tensor) : tensor :=
  mkT (shape t) (zipw (fun n r => map (fun x => ext_mul n x) r) c (rows t)).

(** ** weighted_slerp (lines 91-98) *)

Definition weighted_slerp (weight : R) (v0 v1 : tensor) : tensor :=
  let v0_norm := div_keepdim v0 (norm_lastdim v0) in
  let v1_norm := div_keepdim v1 (norm_lastdim v1) in
  let dot_product := sum_lastdim (mul_t v0_norm v1_norm) in
  let omega := map ext_acos dot_product in
  let sin_omega := map ext_sin omega in
  add_t
    (mul_keepdim
       (zipw ext_div (map (fun o => ext_sin (ext_mul (Fin (1 - weight)) o)) omega) sin_omega)
       v0)
    (mul_keepdim
       (zipw ext_div (map (fun o => ext_sin (ext_mul (Fin weight) o)) omega) sin_omega)
       v1).

(** ** Validation: [len(...) == len(...)] and [np.isclose(sum(weights), 1.0)] *)

(** Python's [sum] over a list of floats, left to right from 0. *)
Definition py_sum (ws : list R) : R := fold_left Rplus ws 0.

(** Default tolerances of [np.isclose]. *)
Definition rtol : R := 1 / 100000.
Definition atol : R := 1 / 100000000.

(** [np.isclose(a, b)]: [|a - b| <= atol + rtol * |b|]. *)
Definition isclose (a b : R) : bool :=
  if Rle_dec (Rabs (a - b)) (atol + rtol * Rabs b) then true else false.

Inductive exn : Type :=
| AssertionError (msg : string)
| RuntimeError (msg : string)
| IndexError (msg : string).

Inductive result (A : Type) : Type :=
| Ok (a : A)
| Error (e : exn).
Arguments Ok {A} a.
Arguments Error {A} e.

(** ** barycentric_interpolation (lines 150-171) *)

Definition barycentric_interpolation (latents : list tensor) (weights : list R) : result tensor :=
  if negb (length latents =? length weights)%nat
  then Error (AssertionError "Number of latents and weights must match.")
  else if negb (isclose (py_sum weights) 1)
  then Error (AssertionError "Weights must sum to 1.")
  else match latents with
       | [] => Error (IndexError "list index out of range")
       | l0 :: _ =>
           Ok (fold_left (fun blended_latent lw => add_t blended_latent (scale (fst lw) (snd lw)))
                 (combine latents weights) (zeros_like l0))
       end.

(** ** rbf_interpolation (lines 226-261) *)

Definition gaussian_rbf (distances : list (list ext)) (epsilon : R) : list (list ext) :=
  map (map (fun d => ext_exp (ext_neg (ext_sq (ext_mul (Fin epsilon) d))))) distances.

(** [torch.stack]: all tensors must have one shape; a new leading axis. *)
Definition stack (ts : list tensor) : result tensor :=
  match ts with
  | [] => Error (RuntimeError "stack expects a non-empty TensorList")
  | t0 :: _ =>
      if forallb (fun t => if list_eq_dec Nat.eq_dec (shape t) (shape t0) then true else false) ts
      then Ok (mkT (length ts :: shape t0) (flat_map rows ts))
      else Error (RuntimeError "stack expects each tensor to be equal size")
  end.

Fixpoint chunk {A : Type} (n k : nat) (l : list A) : list (list A) :=
  match n with
  | O => []
  | S n' => firstn k l :: chunk n' k (skipn k l)
  end.

(** [t.view(n, -1)]: [n] flat vectors. *)
Definition view_rows (n : nat) (t : tensor) : list (list ext) :=
  let flat := concat (rows t) in chunk n (length flat / n) flat.

(** [torch.cdist(xs, ys, p=2)]. *)
Definition dist2 (x y : list ext) : ext :=
  ext_sqrt (ext_sum (zipw (fun a b => ext_sq (ext_sub a b)) x y)).

Definition cdist (xs ys : list (list ext)) : list (list ext) :=
  map (fun x => map (fun y => dist2 x y) ys) xs.

(** [K / K.sum(dim=1, keepdim=True)]. *)
Definition normalize_rows (K : list (list ext)) : list (list ext) :=
  map (fun row => let s := ext_sum row in map (fun k => ext_div k s) row) K.

(** The items [S[i]] of a tensor along its first axis, as lists of rows. *)
Definition slices (S : tensor) : list (list (list ext)) :=
  let n := hd O (shape S) in chunk n (length (rows S) / n) (rows S).

(** [sum_i col[i] * S[i]]. *)
Definition contract (col : list ext) (items : list (list (list ext))) : list (list ext) :=
  match items with
  | [] => []
  | it0 :: _ =>
      fold_left (fun acc ci => zipw (zipw ext_add) acc (map (map (ext_mul (fst ci))) (snd ci)))
        (combine col items) (map (map (fun _ => Fin 0)) it0)
  end.

(** [torch.einsum('ij,i...->j...', K, S)]: [out[j] = sum_i K[i][j] * S[i]]. *)
Definition einsum_ij_i_j (K : list (list ext)) (S : tensor) : tensor :=
  let m := match K with [] => O | k0 :: _ => length k0 end in
  mkT (m :: tl (shape S))
      (flat_map (fun j => contract (map (fun Ki => nth j Ki NaN) K) (slices S)) (seq 0 m)).

Definition rbf_interpolation (latents : list tensor) (weights : list R) (epsilon : R) : result tensor :=
  if negb (length latents =? length weights)%nat
  then Error (AssertionError "Number of latents and weights must match.")
  else if negb (isclose (py_sum weights) 1)
  then Error (AssertionError "Weights must sum to 1.")
  else match stack latents with
       | Error e => Error e
       | Ok latent_stack =>
           let flat := view_rows (length latents) latent_stack in
           let distances := cdist flat flat in
           let rbf_weights := gaussian_rbf distances epsilon in
           let rbf_weights := normalize_rows rbf_weights in
           Ok (einsum_ij_i_j rbf_weights latent_stack)
       end.

(** ** Float32 arithmetic *)

(** The latents are float32 tensors (the VAE runs in float32 while they are
    computed).  [fl32 x] is [x] rounded to the nearest binary32 number, ties to
    even: a 24-bit significand, exponents down to -126 with subnormals below,
    and overflow to an infinity once the rounded magnitude reaches [2^128].
    A float32 operation is the exact operation on [ext] followed by [fl32]
    (IEEE-754 operations, and [acos] and [sin] as correctly rounded library
    functions).  A Python float that meets a float32 tensor is rounded to
    float32 first. *)

Definition pow2 (k : Z) : R := powerRZ 2 k.

(** [floor (log2 x)] for [x > 0]. *)
Definition log2_floor (x : R) : Z := Int_part (ln x / ln 2).

(** Rounding to an integer, ties to even. *)
Definition round_ne (y : R) : Z :=
  let f := Int_part y in
  let d := y - IZR f in
  if Rlt_dec d (1 / 2) then f
  else if Rlt_dec (1 / 2) d then (f + 1)%Z
  else if Z.even f then f else (f + 1)%Z.

(** The binary exponent of [x] in float32, at least that of the subnormals. *)
Definition expo32 (x : R) : Z := Z.max (log2_floor (Rabs x)) (-126).

(** Rounding to the float32 grid, without overflow. *)
Definition rnd32 (x : R) : R :=
  if Req_EM_T x 0 then 0
  else IZR (round_ne (x / pow2 (expo32 x - 23))) * pow2 (expo32 x - 23).

Definition fl32 (x : R) : ext :=
  let r := rnd32 x in
  if Rle_dec (pow2 128) (Rabs r) then Inf (is_neg x) else Fin r.

(** [r] is a finite float32 number. *)
Definition is_f32 (r : R) : Prop := rnd32 r = r /\ Rabs r < pow2 128.

Definition to32 (a : ext) : ext := match a with Fin x => fl32 x | _ => a end.

(** The operations [weighted_slerp] uses, in one arithmetic. *)
Record arith : Type := mkArith {
  a_scalar : R -> ext;
  a_add : ext -> ext -> ext;
  a_mul : ext -> ext -> ext;
  a_div : ext -> ext -> ext;
  a_sqrt : ext -> ext;
  a_acos : ext -> ext;
  a_sin : ext -> ext }.

Definition exact_arith : arith :=
  mkArith Fin ext_add ext_mul ext_div ext_sqrt ext_acos ext_sin.

Definition f32_arith : arith :=
  mkArith fl32 (fun a b => to32 (ext_add a b)) (fun a b => to32 (ext_mul a b))
    (fun a b => to32 (ext_div a b)) (fun a => to32 (ext_sqrt a))
    (fun a => to32 (ext_acos a)) (fun a => to32 (ext_sin a)).

Section Arith.
Variable A : arith.

(** [torch.sum(r)] and [torch.norm(r)] over a last-axis row, accumulated left
    to right from 0 (torch may associate a float32 sum differently; on the
    rows used below all addends but one are 0, so the order does not matter). *)
Definition sum_in (r : list ext) : ext := fold_left (a_add A) r (Fin 0).

Definition norm_in (r : list ext) : ext := a_sqrt A (sum_in (map (fun x => a_mul A x x) r)).

(** [weighted_slerp] (lines 91-98) in the arithmetic [A]: [weighted_slerp_in
    exact_arith] is [weighted_slerp], [weighted_slerp_in f32_arith] is its float32
    version.  The Python float [1.0 - weight] is taken as the real [1 - weight]
    before its rounding to float32 (exact for the weights 0 and 1). *)
Definition weighted_slerp_in (weight : R) (v0 v1 : tensor) : tensor :=
  let v0_norm := zipw (fun r n => map (fun x => a_div A x n) r) (rows v0) (map norm_in (rows v0)) in
  let v1_norm := zipw (fun r n => map (fun x => a_div A x n) r) (rows v1) (map norm_in (rows v1)) in
  let dot_product := map sum_in (zipw (zipw (a_mul A)) v0_norm v1_norm) in
  let omega := map (a_acos A) dot_product in
  let sin_omega := map (a_sin A) omega in
  let c0 := zipw (a_div A) (map (fun o => a_sin A (a_mul A (a_scalar A (1 - weight)) o)) omega) sin_omega in
  let c1 := zipw (a_div A) (map (fun o => a_sin A (a_mul A (a_scalar A weight) o)) omega) sin_omega in
  mkT (shape v0)
    (zipw (zipw (a_add A))
       (zipw (fun n r => map (fun x => a_mul A n x) r) c0 (rows v0))
       (zipw (fun n r => map (fun x => a_mul A n x) r) c1 (rows v1))).

(** The same computation, one pair of last-axis rows at a time. *)
Definition unit_copy_in (r : list ext) : list ext :=
  let n := norm_in r in map (fun x => a_div A x n) r.

Definition slerp_angle_in (r0 r1 : list ext) : ext :=
  a_acos A (sum_in (zipw (a_mul A) (unit_copy_in r0) (unit_copy_in r1))).

Definition slerp_row_in (t : R) (r0 r1 : list ext) : list ext :=
  let omega := slerp_angle_in r0 r1 in
  let c0 := a_div A (a_sin A (a_mul A (a_scalar A (1 - t)) omega)) (a_sin A omega) in
  let c1 := a_div A (a_sin A (a_mul A (a_scalar A t) omega)) (a_sin A omega) in
  zipw (fun a b => a_add A (a_mul A c0 a) (a_mul A c1 b)) r0 r1.

End Arith.

(** [gaussian_rbf] (lines 226-228) in float32: [torch.exp(-(epsilon * distances) ** 2)]. *)
Definition gaussian_rbf32 (distances : list (list ext)) (epsilon : R) : list (list ext) :=
  map (map (fun d => to32 (ext_exp (ext_neg (to32 (ext_sq (to32 (ext_mul (fl32 epsilon) d)))))))) distances.

(** ** The model object and the [PyM] monad *)

Inductive dtype : Type := float16 | float32.

(** The part of [StableDiffusionXLPipeline] the code reads or writes. *)
Record model : Type := mkModel { vae_dtype : dtype; scaling_factor : R }.

Definition with_vae_dtype (m : model) (d : dtype) : model := mkModel d (scaling_factor m).

Definition PyM (A : Type) : Type := model -> model * result A.

Definition ret {A : Type} (a : A) : PyM A := fun m => (m, Ok a).

Definition bind {A B : Type} (c : PyM A) (k : A -> PyM B) : PyM B :=
  fun m => match c m with
           | (m', Ok a) => k a m'
           | (m', Error e) => (m', Error e)
           end.

Notation "x <- c1 ;; c2" := (bind c1 (fun x => c2))
  (at level 100, c1 at next level, right associativity).

Definition raise {A : Type} (e : exn) : PyM A := fun m => (m, Error e).
Definition lift {A : Type} (r : result A) : PyM A := fun m => (m, r).

Definition py_assert (b : bool) (msg : string) : PyM unit :=
  if b then ret tt else raise (AssertionError msg).

(** [model.vae.to(dtype=d)]. *)
Definition vae_to (d : dtype) : PyM unit := fun m => (with_vae_dtype m d, Ok tt).

(** ** Image preparation (lines 25-28 and their copies) *)

(** [.permute(2, 0, 1)] of an [H x W x C] image whose rows are its pixels. *)
Definition permute_201 (t : tensor) : tensor :=
  match shape t with
  | [H; W; C] =>
      mkT [C; H; W]
        (flat_map (fun c =>
           map (fun h =>
             map (fun w => nth c (nth (h * W + w)%nat (rows t) []) NaN) (seq 0 W))
             (seq 0 H))
           (seq 0 C))
  | _ => t
  end.

(** [.unsqueeze(0)]. *)
Definition unsqueeze_0 (t : tensor) : tensor := mkT (1%nat :: shape t) (rows t).

(** [((torch.from_numpy(img).float() / 255.) * 2 - 1).permute(2, 0, 1).unsqueeze(0)] *)
Definition permuted_image (img : tensor) : tensor :=
  let scaled_image := map_t (fun x => ext_div x (Fin 255)) img in
  unsqueeze_0 (permute_201 (map_t (fun x => ext_sub (ext_mul x (Fin 2)) (Fin 1)) scaled_image)).

Section Encoding.

(** [model.vae.encode(x)['latent_dist'].mean]: the pretrained VAE, an external
    collaborator, run at the precision the VAE currently has. *)
Variable vae_encode_mean : dtype -> tensor -> tensor.

(** [model.vae.encode(permuted_image)['latent_dist'].mean * model.vae.config.scaling_factor] *)
Definition latent_of (m : model) (img : tensor) : tensor :=
  scale (vae_encode_mean (vae_dtype m) (permuted_image img)) (scaling_factor m).

Definition encode_latent (img : tensor) : PyM tensor := fun m => (m, Ok (latent_of m img)).

(** *** image_encoding (lines 19-37) *)

Definition image_encoding (image : tensor) : PyM tensor :=
  _ <- vae_to float32 ;;
  latent_img <- encode_latent image ;;
  _ <- vae_to float16 ;;
  ret latent_img.

(** *** images_encoding (lines 41-87) *)

Fixpoint linear_loop (blended_latent_img : option tensor) (xs : list (tensor * R))
  : PyM (option tensor) :=
  match xs with
  | [] => ret blended_latent_img
  | (img, weight) :: xs' =>
      latent_img <- encode_latent img ;;
      match blended_latent_img with
      | None => linear_loop (Some (scale latent_img weight)) xs'
      | Some b => linear_loop (Some (add_t b (scale latent_img weight))) xs'
      end
  end.

Definition images_encoding (images : list tensor) (blending_weights : list R)
  : PyM (option tensor) :=
  _ <- py_assert (length images =? length blending_weights)%nat
         "The number of images and blending_weights must match." ;;
  _ <- py_assert (isclose (py_sum blending_weights) 1) "blending_weights must sum to 1." ;;
  _ <- vae_to float32 ;;
  blended_latent_img <- linear_loop None (combine images blending_weights) ;;
  _ <- vae_to float16 ;;
  ret blended_latent_img.

(** *** images_encoding_slerp (lines 100-146) *)

Fixpoint slerp_loop (blended_latent_img : option tensor) (xs : list (tensor * R))
  : PyM (option tensor) :=
  match xs with
  | [] => ret blended_latent_img
  | (img, weight) :: xs' =>
      latent_img <- encode_latent img ;;
      match blended_latent_img with
      | None => slerp_loop (Some (scale latent_img weight)) xs'
      | Some b => slerp_loop (Some (weighted_slerp weight b latent_img)) xs'
      end
  end.

Definition images_encoding_slerp (images : list tensor) (blending_weights : list R)
  : PyM (option tensor) :=
  _ <- py_assert (length images =? length blending_weights)%nat
         "The number of images and blending_weights must match." ;;
  _ <- py_assert (isclose (py_sum blending_weights) 1) "blending_weights must sum to 1." ;;
  _ <- vae_to float32 ;;
  blended_latent_img <- slerp_loop None (combine images blending_weights) ;;
  _ <- vae_to float16 ;;
  ret blended_latent_img.

(** *** images_encoding_barycentric (lines 173-219) *)

Fixpoint encode_all (images : list tensor) : PyM (list tensor) :=
  match images with
  | [] => ret []
  | img :: images' =>
      latent_img <- encode_latent img ;;
      latent_representations <- encode_all images' ;;
      ret (latent_img :: latent_representations)
  end.

Definition images_encoding_barycentric (images : list tensor) (blending_weights : list R)
  : PyM tensor :=
  _ <- py_assert (length images =? length blending_weights)%nat
         "The number of images and blending_weights must match." ;;
  _ <- py_assert (isclose (py_sum blending_weights) 1) "blending_weights must sum to 1." ;;
  _ <- vae_to float32 ;;
  latent_representations <- encode_all images ;;
  blended_latent_img <- lift (barycentric_interpolation latent_representations blending_weights) ;;
  _ <- vae_to float16 ;;
  ret blended_latent_img.

(** *** images_encoding_rbf (lines 263-310) *)

Definition images_encoding_rbf (images : list tensor) (blending_weights : list R) (epsilon : R)
  : PyM tensor :=
  _ <- py_assert (length images =? length blending_weights)%nat
         "The number of images and blending_weights must match." ;;
  _ <- py_assert (isclose (py_sum blending_weights) 1) "blending_weights must sum to 1." ;;
  _ <- vae_to float32 ;;
  latent_representations <- encode_all images ;;
  blended_latent_img <- lift (rbf_interpolation latent_representations blending_weights epsilon) ;;
  _ <- vae_to float16 ;;
  ret blended_latent_img.

End Encoding.

(** ** The specification's descriptions, for comparison with the code *)

(** Weighted slerp as the specification describes it, one last-axis row at a
    time: the angle comes from unit-normalised copies of the rows, the result
    combines the original rows. *)
Definition unit_copy (r : list ext) : list ext :=
  let n := ext_sqrt (ext_sum (map ext_sq r)) in map (fun x => ext_div x n) r.

Definition slerp_angle (r0 r1 : list ext) : ext :=
  ext_acos (ext_sum (zipw ext_mul (unit_copy r0) (unit_copy r1))).

Definition slerp_row_spec (t : R) (r0 r1 : list ext) : list ext :=
  let omega := slerp_angle r0 r1 in
  let c0 := ext_div (ext_sin (ext_mul (Fin (1 - t)) omega)) (ext_sin omega) in
  let c1 := ext_div (ext_sin (ext_mul (Fin t) omega)) (ext_sin omega) in
  zipw (fun a b => ext_add (ext_mul c0 a) (ext_mul c1 b)) r0 r1.

Definition weighted_slerp_spec (t : R) (v0 v1 : tensor) : tensor :=
  mkT (shape v0) (zipw (slerp_row_spec t) (rows v0) (rows v1)).


(** ** Auxiliary notions for the statements *)

(** Sum of a list of reals. *)
Definition rsum (xs : list R) : R := fold_right Rplus 0 xs.

Definition result_map {A B : Type} (f : A -> B) (r : result A) : result B :=
  match r with Ok a => Ok (f a) | Error e => Error e end.

Definition is_assertion_error {A : Type} (r : result A) : bool :=
  match r with Error (AssertionError _) => true | _ => false end.

(** The condition the asserts check, with [np.isclose] written out. *)
Definition weights_valid (n : nat) (ws : list R) : Prop :=
  n = length ws /\ Rabs (py_sum ws - 1) <= atol + rtol.

Definition is_fin (x : ext) : Prop := exists r, x = Fin r.

Definition all_fin (t : tensor) : Prop := Forall (Forall is_fin) (rows t).

Definition all_nan (t : tensor) : Prop := Forall (Forall (fun x => x = NaN)) (rows t).

(** Every element is a finite float32 number. *)
Definition all_f32 (t : tensor) : Prop :=
  Forall (Forall (fun x => exists r, x = Fin r /\ is_f32 r)) (rows t).

(** A row with one entry 1 and all others 0. *)
Definition one_hot (r : list ext) : Prop :=
  exists k n, r = repeat (Fin 0) k ++ Fin 1 :: repeat (Fin 0) n.

(** A last-axis row of zeros (norm 0) or of NaNs. *)
Definition degenerate_row (r : list ext) : Prop :=
  Forall (fun x => x = Fin 0) r \/ Forall (fun x => x = NaN) r.

(** Both asserts, as one boolean. *)
Definition checks_pass (n : nat) (ws : list R) : bool :=
  (n =? length ws)%nat && isclose (py_sum ws) 1.

(** How a call of an encoder leaves the model: float16 after a result,
    unchanged after a failed assert, float32 after an error raised later. *)
Definition precision_effect {A : Type} (m : model) (out : model * result A) : Prop :=
  match out with
  | (m', Ok _) => m' = with_vae_dtype m float16
  | (m', Error (AssertionError _)) => m' = m
  | (m', Error _) => m' = with_vae_dtype m float32
  end.

Definition rejected {A : Type} (m : model) (out : model * result A) : Prop :=
  exists msg, out = (m, Error (AssertionError msg)).

Definition msg_len : string := "The number of images and blending_weights must match.".
Definition msg_sum : string := "blending_weights must sum to 1.".

(** ** Concrete inputs *)

(** An identity stand-in for the VAE, a model loaded in float32, a 1x1 RGB image. *)
Definition id_vae (_ : dtype) (t : tensor) : tensor := t.
Definition model_f32 : model := mkModel float32 1.
Definition black_pixel : tensor := mkT [1%nat; 1%nat; 3%nat] [[Fin 0; Fin 0; Fin 0]].

(** A latent of shape [(1, 2)]. *)
Definition latent_12 : tensor := mkT [1%nat; 2%nat] [[Fin 1; Fin 2]].

(** A one-element latent, and two orthogonal rows. *)
Definition latent_1 : tensor := mkT [1%nat] [[Fin 1]].
Definition row_e1 : tensor := mkT [1%nat; 2%nat] [[Fin 1; Fin 0]].
Definition row_e2 : tensor := mkT [1%nat; 2%nat] [[Fin 0; Fin 1]].

(** A float32 row that is not colinear with [row_e1] but nearly parallel to it:
    [[1, 2^-13]] (2^-13 is about 1.2e-4). *)
Definition v_near : tensor := mkT [1%nat; 2%nat] [[Fin 1; Fin (pow2 (-13))]].

Definition image_21 : tensor :=
  mkT [2%nat; 1%nat; 3%nat] [[Fin 0; Fin 255; Fin 51]; [Fin 102; Fin 204; Fin 153]].


(** ** General lemmas *)

Lemma ext_add_0_l : forall x, ext_add (Fin 0) x = x.
Proof. intros [r| |]; simpl; auto. f_equal; ring. Qed.

Lemma isclose_spec : forall a, isclose a 1 = true <-> Rabs (a - 1) <= atol + rtol.
Proof.
  intro a. unfold isclose. rewrite Rabs_R1, Rmult_1_r.
  destruct (Rle_dec _ _); split; intro H; auto; discriminate.
Qed.

Lemma isclose_0_1 : isclose 0 1 = false.
Proof.
  unfold isclose. rewrite (Rabs_left (0 - 1)) by lra.
  rewrite Rabs_R1. unfold atol, rtol.
  destruct (Rle_dec _ _); auto. lra.
Qed.

Lemma isclose_1_1 : isclose 1 1 = true.
Proof.
  apply isclose_spec. replace (1 - 1) with 0 by ring. rewrite Rabs_R0.
  unfold atol, rtol. lra.
Qed.

Lemma py_sum_one : forall w, py_sum [w] = 0 + w.
Proof. reflexivity. Qed.

Lemma add_zeros_scale : forall t w, add_t (zeros_like t) (scale t w) = scale t w.
Proof.
  intros [s rs] w. unfold add_t, zip_t, zeros_like, scale, map_t; simpl. f_equal.
  induction rs as [|r rs IH]; simpl; auto. f_equal; auto.
  induction r as [|x r IHr]; simpl; auto. f_equal; auto. apply ext_add_0_l.
Qed.

Lemma combine_map_l : forall (A B C : Type) (f : A -> C) (l : list A) (l' : list B),
  combine (map f l) l' = map (fun p => (f (fst p), snd p)) (combine l l').
Proof.
  intros A B C f l. induction l as [|a l IH]; intros [|b l']; simpl; auto. f_equal; auto.
Qed.

Lemma fold_left_map_fuse : forall (A B C : Type) (f : A -> B -> A) (g : C -> B) l a,
  fold_left f (map g l) a = fold_left (fun acc c => f acc (g c)) l a.
Proof. intros A B C f g l. induction l; intro a0; simpl; auto. Qed.

Lemma zipw_map : forall (A B A' B' C : Type) (f : A' -> B' -> C) (g : A -> A') (h : B -> B')
  (l1 : list A) (l2 : list B),
  zipw f (map g l1) (map h l2) = zipw (fun a b => f (g a) (h b)) l1 l2.
Proof. intros until l1. induction l1; intros [|b l2]; simpl; auto. f_equal; auto. Qed.

Lemma checks_pass_spec : forall n ws, checks_pass n ws = true <-> weights_valid n ws.
Proof.
  intros n ws. unfold checks_pass, weights_valid. rewrite andb_true_iff, Nat.eqb_eq, isclose_spec.
  tauto.
Qed.

Lemma negb_true_not : forall b, negb b = true <-> b <> true.
Proof. intros []; simpl; split; congruence. Qed.

Lemma barycentric_assertion : forall latents ws,
  is_assertion_error (barycentric_interpolation latents ws) = negb (checks_pass (length latents) ws).
Proof.
  intros latents ws. unfold barycentric_interpolation, checks_pass.
  destruct (length latents =? length ws)%nat; [|reflexivity].
  destruct (isclose (py_sum ws) 1); [|reflexivity].
  destruct latents; reflexivity.
Qed.

Lemma rbf_assertion : forall latents ws epsilon,
  is_assertion_error (rbf_interpolation latents ws epsilon) = negb (checks_pass (length latents) ws).
Proof.
  intros latents ws epsilon. unfold rbf_interpolation, checks_pass, stack.
  destruct (length latents =? length ws)%nat; [|reflexivity].
  destruct (isclose (py_sum ws) 1); [|reflexivity].
  destruct latents as [|t0 ts]; [reflexivity|].
  destruct (forallb _ _); reflexivity.
Qed.

Lemma chunk_length : forall (A : Type) n k (l : list A), length (chunk n k l) = n.
Proof. intros A n. induction n; intros k l; simpl; auto. Qed.

Lemma kernel_width : forall xs epsilon,
  match normalize_rows (gaussian_rbf (cdist xs xs) epsilon) with
  | [] => O
  | k0 :: _ => length k0
  end = length xs.
Proof. intros [|x xs] epsilon; simpl; auto. rewrite !length_map. reflexivity. Qed.

Lemma forallb_same_shape : forall t0 ts,
  Forall (fun t => shape t = shape t0) ts ->
  forallb (fun t => if list_eq_dec Nat.eq_dec (shape t) (shape t0) then true else false) ts = true.
Proof.
  intros t0 ts H. induction H as [|t ts Ht _ IH]; simpl; auto.
  rewrite IH. destruct (list_eq_dec _ _ _); auto.
Qed.

Lemma stack_same_shape : forall t0 ts,
  Forall (fun t => shape t = shape t0) ts ->
  stack (t0 :: ts) = Ok (mkT (S (length ts) :: shape t0) (flat_map rows (t0 :: ts))).
Proof.
  intros t0 ts H. unfold stack. rewrite forallb_same_shape; [reflexivity|].
  constructor; auto.
Qed.

Lemma ext_fin_sub_sq : forall x, is_fin x -> ext_sq (ext_sub x x) = Fin 0.
Proof. intros x [r ->]. simpl. f_equal. ring. Qed.

Lemma ext_sum_zeros : forall l, Forall (fun x => x = Fin 0) l -> ext_sum l = Fin 0.
Proof.
  unfold ext_sum. intros l H. induction H as [|x l Hx _ IH]; simpl; auto.
  subst x. rewrite Rplus_0_l. exact IH.
Qed.

Lemma dist2_self : forall x, Forall is_fin x -> dist2 x x = Fin 0.
Proof.
  intros x Hx. unfold dist2. rewrite ext_sum_zeros.
  - simpl. destruct (Rlt_dec 0 0); [lra|]. rewrite sqrt_0. reflexivity.
  - induction Hx as [|a x Ha _ IH]; simpl; constructor; auto. apply ext_fin_sub_sq; auto.
Qed.

Lemma gaussian_at_0 : forall epsilon,
  ext_exp (ext_neg (ext_sq (ext_mul (Fin epsilon) (Fin 0)))) = Fin 1.
Proof.
  intro epsilon. simpl. replace (- (epsilon * 0 * (epsilon * 0))) with 0 by ring.
  rewrite exp_0. reflexivity.
Qed.

Lemma normalize_single : ext_div (Fin 1) (ext_sum [Fin 1]) = Fin 1.
Proof. simpl. destruct (Req_EM_T (0 + 1) 0); [lra|]. f_equal. field. Qed.

Lemma contract_single : forall rs,
  Forall (Forall is_fin) rs -> contract [Fin 1] [rs] = rs.
Proof.
  intros rs H. unfold contract. simpl.
  induction H as [|r rs Hr _ IH]; simpl; auto. f_equal; auto.
  clear IH. induction Hr as [|x r [a ->] _ IHr]; simpl; auto. f_equal; auto. f_equal. ring.
Qed.

Lemma weighted_slerp_spec_eq : forall t v0 v1,
  weighted_slerp t v0 v1 = weighted_slerp_spec t v0 v1.
Proof.
  intros t [s0 rs0] [s1 rs1].
  unfold weighted_slerp, weighted_slerp_spec, add_t, zip_t, mul_t, mul_keepdim, div_keepdim,
    sum_lastdim, norm_lastdim. cbn [shape rows]. f_equal.
  revert rs1. induction rs0 as [|r0 rs0 IH]; intros [|r1 rs1]; simpl; auto.
  f_equal; [|apply IH].
  unfold slerp_row_spec, slerp_angle, unit_copy. rewrite zipw_map. reflexivity.
Qed.


(** *** Finite rows *)

Lemma fin_list : forall r, Forall is_fin r -> exists xs, r = map Fin xs.
Proof.
  intros r H. induction H as [|x r [a ->] _ [xs ->]].
  - exists []. reflexivity.
  - exists (a :: xs). reflexivity.
Qed.

Lemma ext_sum_fin : forall xs, ext_sum (map Fin xs) = Fin (rsum xs).
Proof.
  assert (H : forall xs a, fold_left ext_add (map Fin xs) (Fin a) = Fin (a + rsum xs)).
  { induction xs as [|x xs IH]; intro a; simpl.
    - f_equal. ring.
    - rewrite IH. f_equal. ring. }
  intro xs. unfold ext_sum. rewrite H. f_equal. ring.
Qed.

Lemma rsum_sq_nonneg : forall xs, 0 <= rsum (map (fun x => x * x) xs).
Proof.
  induction xs as [|x xs IH]; simpl; [lra|].
  pose proof (Rle_0_sqr x) as Hx. unfold Rsqr in Hx. lra.
Qed.

Lemma rsum_sq_scaled : forall c xs, c <> 0 ->
  rsum (map (fun x => x / c * (x / c)) xs) = rsum (map (fun x => x * x) xs) / (c * c).
Proof.
  intros c xs Hc. induction xs as [|x xs IH]; simpl.
  - field. exact Hc.
  - rewrite IH. field. exact Hc.
Qed.

Lemma rsum_sq_zero : forall xs,
  rsum (map (fun x => x * x) xs) = 0 -> Forall (fun x => x = 0) xs.
Proof.
  induction xs as [|x xs IH]; simpl; intro H; constructor.
  - pose proof (rsum_sq_nonneg xs). pose proof (Rle_0_sqr x) as Hx. unfold Rsqr in Hx.
    assert (Hxx : x * x = 0) by lra. destruct (Rmult_integral _ _ Hxx); auto.
  - apply IH. pose proof (rsum_sq_nonneg xs). pose proof (Rle_0_sqr x) as Hx.
    unfold Rsqr in Hx. lra.
Qed.

Lemma zipw_diag : forall (A C : Type) (f : A -> A -> C) l, zipw f l l = map (fun x => f x x) l.
Proof. intros A C f l. induction l; simpl; f_equal; auto. Qed.

Lemma zipw_fin_mul : forall xs ys,
  zipw ext_mul (map Fin xs) (map Fin ys) = map Fin (zipw Rmult xs ys).
Proof. induction xs as [|x xs IH]; intros [|y ys]; simpl; f_equal; auto. Qed.

Lemma ext_div_fin : forall x y, y <> 0 -> ext_div (Fin x) (Fin y) = Fin (x / y).
Proof. intros x y Hy. simpl. destruct (Req_EM_T y 0); [contradiction | reflexivity]. Qed.

Lemma ext_sum_sq_fin : forall xs,
  ext_sum (map ext_sq (map Fin xs)) = Fin (rsum (map (fun x => x * x) xs)).
Proof. intro xs. rewrite map_map, <- ext_sum_fin, map_map. reflexivity. Qed.

Lemma unit_copy_fin : forall xs, rsum (map (fun x => x * x) xs) <> 0 ->
  unit_copy (map Fin xs) =
  map Fin (map (fun x => x / sqrt (rsum (map (fun x => x * x) xs))) xs).
Proof.
  intros xs HS. unfold unit_copy. rewrite ext_sum_sq_fin.
  pose proof (rsum_sq_nonneg xs) as Hnn.
  assert (Hsq : sqrt (rsum (map (fun x => x * x) xs)) <> 0).
  { intro H0. apply HS. apply sqrt_eq_0; auto. }
  cbn [ext_sqrt]. destruct (Rlt_dec _ 0) as [Hlt|_]; [lra|].
  rewrite !map_map. apply map_ext. intro a. apply ext_div_fin. exact Hsq.
Qed.

Lemma unit_copy_fin_zero : forall xs, rsum (map (fun x => x * x) xs) = 0 ->
  unit_copy (map Fin xs) = map (fun _ => NaN) xs.
Proof.
  intros xs HS. pose proof (rsum_sq_zero xs HS) as Hz. unfold unit_copy.
  rewrite ext_sum_sq_fin, HS. cbn [ext_sqrt]. destruct (Rlt_dec 0 0); [lra|].
  rewrite sqrt_0, map_map. apply map_ext_in. intros a Ha.
  rewrite Forall_forall in Hz. rewrite (Hz a Ha). simpl.
  destruct (Req_EM_T 0 0); [reflexivity | contradiction].
Qed.

Lemma fold_ext_add_nan : forall l, fold_left ext_add l NaN = NaN.
Proof. induction l; simpl; auto. Qed.

(** *** Colinear rows: the angle is 0 (or NaN for a zero row) *)

Lemma slerp_angle_self : forall xs, xs <> [] ->
  slerp_angle (map Fin xs) (map Fin xs) = NaN \/ slerp_angle (map Fin xs) (map Fin xs) = Fin 0.
Proof.
  intros xs Hne. unfold slerp_angle.
  destruct (Req_EM_T (rsum (map (fun x => x * x) xs)) 0) as [HS|HS].
  - left. rewrite unit_copy_fin_zero by exact HS. rewrite zipw_diag, map_map.
    destruct xs as [|x xs]; [congruence|]. simpl. unfold ext_sum. simpl.
    rewrite fold_ext_add_nan. reflexivity.
  - right. rewrite unit_copy_fin by exact HS. rewrite zipw_fin_mul, zipw_diag, ext_sum_fin.
    pose proof (rsum_sq_nonneg xs) as Hnn.
    assert (Hsq : sqrt (rsum (map (fun x => x * x) xs)) <> 0).
    { intro H0. apply HS. apply sqrt_eq_0; auto. }
    rewrite map_map, rsum_sq_scaled by exact Hsq. rewrite sqrt_sqrt by exact Hnn.
    replace (rsum (map (fun x => x * x) xs) / rsum (map (fun x => x * x) xs)) with 1
      by (field; exact HS).
    simpl. destruct (Rle_dec (-1) 1); [|lra]. destruct (Rle_dec 1 1); [|lra].
    rewrite acos_1. reflexivity.
Qed.

Lemma slerp_row_self_nan : forall t r, r <> [] -> Forall is_fin r ->
  slerp_row_spec t r r = map (fun _ => NaN) r.
Proof.
  intros t r Hne Hfin. destruct (fin_list r Hfin) as [xs ->].
  assert (Hxs : xs <> []) by (intro; subst; contradiction).
  unfold slerp_row_spec. cbv zeta.
  assert (Hc0 : ext_div (ext_sin (ext_mul (Fin (1 - t)) (slerp_angle (map Fin xs) (map Fin xs))))
                  (ext_sin (slerp_angle (map Fin xs) (map Fin xs))) = NaN).
  { destruct (slerp_angle_self xs Hxs) as [-> | ->]; [reflexivity|].
    simpl. rewrite Rmult_0_r, sin_0. destruct (Req_EM_T 0 0); [reflexivity | contradiction]. }
  rewrite Hc0, zipw_diag. apply map_ext. intro a. reflexivity.
Qed.

(** *** Float32 rounding *)

Lemma ln2_pos : 0 < ln 2.
Proof. pose proof ln_lt_2. lra. Qed.

Lemma pow2_exp : forall k, pow2 k = exp (IZR k * ln 2).
Proof. intro k. unfold pow2. rewrite powerRZ_Rpower by lra. reflexivity. Qed.

Lemma pow2_pos : forall k, 0 < pow2 k.
Proof. intro k. rewrite pow2_exp. apply exp_pos. Qed.

Lemma pow2_add : forall a b, pow2 (a + b) = pow2 a * pow2 b.
Proof. intros a b. unfold pow2. apply powerRZ_add. lra. Qed.

Lemma pow2_lt : forall a b, (a < b)%Z -> pow2 a < pow2 b.
Proof.
  intros a b H. rewrite !pow2_exp. apply exp_increasing.
  apply Rmult_lt_compat_r; [exact ln2_pos | apply IZR_lt; exact H].
Qed.

Lemma pow2_le : forall a b, (a <= b)%Z -> pow2 a <= pow2 b.
Proof.
  intros a b H. destruct (Z.eq_dec a b) as [->|Hne]; [lra|].
  left. apply pow2_lt. lia.
Qed.

Lemma pow2_le_inv : forall a b, pow2 a <= pow2 b -> (a <= b)%Z.
Proof.
  intros a b H. destruct (Z_le_gt_dec a b) as [|Hgt]; [assumption|].
  pose proof (pow2_lt b a ltac:(lia)). lra.
Qed.

Lemma pow2_IZR : forall j, (0 <= j)%Z -> pow2 j = IZR (2 ^ j).
Proof.
  intros j Hj. destruct (IZN j Hj) as [n ->].
  unfold pow2. rewrite <- pow_powerRZ, pow_IZR. reflexivity.
Qed.

Lemma pow2_0 : pow2 0 = 1.
Proof. reflexivity. Qed.

Lemma Int_part_IZR_plus : forall z d, 0 <= d < 1 -> Int_part (IZR z + d) = z.
Proof. intros z d Hd. symmetry. apply Int_part_spec. lra. Qed.

Lemma log2_floor_unique : forall k x, pow2 k <= x < pow2 (k + 1) -> log2_floor x = k.
Proof.
  intros k x [H1 H2]. pose proof (pow2_pos k) as Hp. unfold log2_floor.
  symmetry. apply Int_part_spec.
  assert (L1 : IZR k * ln 2 <= ln x).
  { rewrite <- (ln_exp (IZR k * ln 2)), <- pow2_exp.
    destruct H1 as [H1|H1]; [left; apply ln_increasing; auto | rewrite H1; lra]. }
  assert (L2 : ln x < (IZR k + 1) * ln 2).
  { rewrite <- (ln_exp ((IZR k + 1) * ln 2)).
    replace (IZR k + 1) with (IZR (k + 1)) by (rewrite plus_IZR; reflexivity).
    rewrite <- pow2_exp. apply ln_increasing; lra. }
  pose proof ln2_pos as Hl.
  split.
  - apply (Rmult_lt_reg_r (ln 2)); [exact Hl|].
    unfold Rdiv. rewrite Rmult_minus_distr_r, Rmult_assoc, Rinv_l by lra. lra.
  - apply (Rmult_le_reg_r (ln 2)); [exact Hl|].
    unfold Rdiv. rewrite Rmult_assoc, Rinv_l by lra. lra.
Qed.

Lemma log2_floor_spec : forall x, 0 < x ->
  pow2 (log2_floor x) <= x < pow2 (log2_floor x + 1).
Proof.
  intros x Hx. unfold log2_floor. set (z := Int_part (ln x / ln 2)).
  destruct (base_Int_part (ln x / ln 2)) as [B1 B2]. fold z in B1, B2.
  pose proof ln2_pos as Hl.
  assert (E1 : IZR z * ln 2 <= ln x).
  { apply (Rmult_le_compat_r (ln 2)) in B1; [|lra].
    unfold Rdiv in B1. rewrite Rmult_assoc, Rinv_l, Rmult_1_r in B1 by lra. exact B1. }
  assert (E2 : ln x < IZR (z + 1) * ln 2).
  { rewrite plus_IZR. assert (B3 : ln x / ln 2 < IZR z + 1) by lra.
    apply (Rmult_lt_compat_r (ln 2)) in B3; [|lra].
    unfold Rdiv in B3. rewrite Rmult_assoc, Rinv_l, Rmult_1_r in B3 by lra. exact B3. }
  rewrite !pow2_exp. split.
  - rewrite <- (exp_ln x) by exact Hx.
    destruct E1 as [E1|E1]; [left; apply exp_increasing; exact E1 | rewrite E1; lra].
  - rewrite <- (exp_ln x) by exact Hx. apply exp_increasing. exact E2.
Qed.

Lemma round_ne_int_plus : forall z d, 0 <= d < 1 / 2 -> round_ne (IZR z + d) = z.
Proof.
  intros z d Hd. unfold round_ne. rewrite Int_part_IZR_plus by lra.
  replace (IZR z + d - IZR z) with d by ring.
  destruct (Rlt_dec d (1 / 2)); [reflexivity | lra].
Qed.

Lemma round_ne_IZR : forall z, round_ne (IZR z) = z.
Proof.
  intro z. rewrite <- (Rplus_0_r (IZR z)). apply round_ne_int_plus. lra.
Qed.

Lemma round_ne_near : forall y, Rabs (IZR (round_ne y) - y) <= 1 / 2.
Proof.
  intro y. unfold round_ne. destruct (base_Int_part y) as [B1 B2].
  set (f := Int_part y) in *.
  destruct (Rlt_dec (y - IZR f) (1 / 2)).
  - rewrite Rabs_left1 by lra. lra.
  - destruct (Rlt_dec (1 / 2) (y - IZR f)).
    + rewrite plus_IZR. rewrite Rabs_right by lra. lra.
    + destruct (Z.even f); [rewrite Rabs_left1 by lra; lra|].
      rewrite plus_IZR. rewrite Rabs_right by lra. lra.
Qed.

Lemma rnd32_0 : rnd32 0 = 0.
Proof. unfold rnd32. destruct (Req_EM_T 0 0); [reflexivity | contradiction]. Qed.

Lemma rnd32_nz : forall x, x <> 0 ->
  rnd32 x = IZR (round_ne (x / pow2 (expo32 x - 23))) * pow2 (expo32 x - 23).
Proof. intros x Hx. unfold rnd32. destruct (Req_EM_T x 0); [contradiction | reflexivity]. Qed.

Lemma rnd32_exact : forall x n, x = IZR n * pow2 (expo32 x - 23) -> rnd32 x = x.
Proof.
  intros x n Hx. destruct (Req_EM_T x 0) as [->|Hnz]; [exact rnd32_0|].
  rewrite rnd32_nz by exact Hnz. pose proof (pow2_pos (expo32 x - 23)) as Hp.
  set (p := pow2 (expo32 x - 23)) in *.
  replace (x / p) with (IZR n).
  - rewrite round_ne_IZR. symmetry. exact Hx.
  - rewrite Hx. field. lra.
Qed.

Lemma expo32_pow2 : forall k, (-126 <= k)%Z -> expo32 (pow2 k) = k.
Proof.
  intros k Hk. unfold expo32. pose proof (pow2_pos k) as Hp.
  rewrite Rabs_right by lra. rewrite (log2_floor_unique k).
  - lia.
  - split; [lra | apply pow2_lt; lia].
Qed.

Lemma rnd32_pow2 : forall k, (-126 <= k)%Z -> rnd32 (pow2 k) = pow2 k.
Proof.
  intros k Hk. apply (rnd32_exact _ (2 ^ 23)). rewrite expo32_pow2 by exact Hk.
  rewrite <- pow2_IZR by lia. rewrite <- pow2_add. f_equal. lia.
Qed.

Lemma rnd32_1 : rnd32 1 = 1.
Proof. rewrite <- pow2_0. apply rnd32_pow2. lia. Qed.

Lemma pow2_24 : pow2 24 = IZR (2 ^ 24).
Proof. apply pow2_IZR. lia. Qed.

Lemma rnd32_idem : forall x, rnd32 (rnd32 x) = rnd32 x.
Proof.
  intro x. destruct (Req_EM_T x 0) as [->|Hx]; [rewrite rnd32_0; exact rnd32_0|].
  rewrite (rnd32_nz x Hx). set (E := expo32 x). set (u := pow2 (E - 23)).
  set (m := round_ne (x / u)).
  assert (Hu : 0 < u) by apply pow2_pos.
  assert (HE : (log2_floor (Rabs x) <= E /\ -126 <= E)%Z) by (unfold E, expo32; lia).
  assert (Hax : 0 < Rabs x) by (apply Rabs_pos_lt; exact Hx).
  destruct (log2_floor_spec (Rabs x) Hax) as [_ Hup].
  assert (HuE : pow2 (E + 1) = pow2 24 * u) by (unfold u; rewrite <- pow2_add; f_equal; lia).
  assert (Hxu : Rabs (x / u) < pow2 24).
  { unfold Rdiv. rewrite Rabs_mult, Rabs_inv, (Rabs_right u) by lra.
    apply (Rmult_lt_reg_r u); [exact Hu|]. rewrite Rmult_assoc, Rinv_l, Rmult_1_r by lra.
    rewrite <- HuE. eapply Rlt_le_trans; [exact Hup | apply pow2_le; lia]. }
  assert (Hm : (Z.abs m <= 2 ^ 24)%Z).
  { pose proof (round_ne_near (x / u)) as Hn. fold m in Hn.
    assert (IZR (Z.abs m) < IZR (2 ^ 24 + 1)).
    { rewrite abs_IZR, plus_IZR, <- pow2_24.
      pose proof (Rabs_triang_inv (IZR m) (x / u)). lra. }
    apply lt_IZR in H. lia. }
  destruct (Z.eq_dec m 0) as [Hm0|Hm0].
  { rewrite Hm0, Rmult_0_l. exact rnd32_0. }
  set (y := IZR m * u).
  assert (Hy : y <> 0).
  { unfold y. apply Rmult_integral_contrapositive. split; [apply not_0_IZR; exact Hm0 | lra]. }
  assert (Hay : 0 < Rabs y) by (apply Rabs_pos_lt; exact Hy).
  assert (Hyle : Rabs y <= pow2 (E + 1)).
  { unfold y. rewrite Rabs_mult, (Rabs_right u) by lra. rewrite HuE, pow2_24, <- abs_IZR.
    apply Rmult_le_compat_r; [lra|]. apply IZR_le. exact Hm. }
  destruct (log2_floor_spec (Rabs y) Hay) as [Hlo _].
  assert (Hk : (log2_floor (Rabs y) <= E + 1)%Z).
  { apply pow2_le_inv. lra. }
  destruct (Z_le_gt_dec (expo32 y) E) as [HE'|HE'].
  - apply (rnd32_exact y (m * 2 ^ (E - expo32 y))).
    rewrite mult_IZR, <- pow2_IZR by lia. unfold y, u. rewrite Rmult_assoc, <- pow2_add.
    do 2 f_equal. lia.
  - assert (Hk' : log2_floor (Rabs y) = (E + 1)%Z) by (unfold expo32 in HE'; lia).
    rewrite Hk' in Hlo. assert (Hay' : Rabs y = pow2 (E + 1)) by lra.
    assert (He : expo32 y = (E + 1)%Z) by (unfold expo32; lia).
    assert (Hp23 : pow2 (E + 1) = IZR (2 ^ 23) * pow2 (expo32 y - 23)).
    { rewrite He, <- pow2_IZR by lia. rewrite <- pow2_add. f_equal. lia. }
    destruct (Rcase_abs y) as [Hneg|Hpos].
    + apply (rnd32_exact y (- 2 ^ 23)). rewrite opp_IZR.
      rewrite Rabs_left in Hay' by exact Hneg. lra.
    + apply (rnd32_exact y (2 ^ 23)). rewrite Rabs_right in Hay' by exact Hpos. lra.
Qed.

(** *** Float32 values *)

Lemma fl32_f32 : forall r, is_f32 r -> fl32 r = Fin r.
Proof.
  intros r [H1 H2]. unfold fl32. rewrite H1.
  destruct (Rle_dec (pow2 128) (Rabs r)); [lra | reflexivity].
Qed.

Lemma fl32_is_f32 : forall x r, fl32 x = Fin r -> is_f32 r.
Proof.
  intros x r H. unfold fl32 in H.
  destruct (Rle_dec (pow2 128) (Rabs (rnd32 x))) as [|Hlt]; [discriminate|].
  injection H as <-. split; [apply rnd32_idem | lra].
Qed.

Lemma to32_is_f32 : forall e r, to32 e = Fin r -> is_f32 r.
Proof. intros [x| |] r H; simpl in H; [exact (fl32_is_f32 x r H) | discriminate | discriminate]. Qed.

Lemma is_f32_pow2 : forall k, (-126 <= k <= 127)%Z -> is_f32 (pow2 k).
Proof.
  intros k Hk. split; [apply rnd32_pow2; lia|].
  pose proof (pow2_pos k). rewrite Rabs_right by lra. apply pow2_lt. lia.
Qed.

Lemma is_f32_0 : is_f32 0.
Proof. split; [exact rnd32_0|]. rewrite Rabs_R0. apply pow2_pos. Qed.

Lemma is_f32_1 : is_f32 1.
Proof. rewrite <- pow2_0. apply is_f32_pow2. lia. Qed.

Lemma fl32_0 : fl32 0 = Fin 0.
Proof. exact (fl32_f32 0 is_f32_0). Qed.

Lemma fl32_1 : fl32 1 = Fin 1.
Proof. exact (fl32_f32 1 is_f32_1). Qed.

(** [1 + 2^-26] lies within half a unit in the last place of 1. *)
Lemma rnd32_1_plus : rnd32 (1 + pow2 (-26)) = 1.
Proof.
  assert (Hp : 0 < pow2 (-26)) by apply pow2_pos.
  assert (H26 : pow2 (-26) = pow2 (-3) * pow2 (-23)) by (rewrite <- pow2_add; reflexivity).
  assert (H23 : 1 = pow2 23 * pow2 (-23)) by (rewrite <- pow2_add; reflexivity).
  assert (H3 : pow2 (-3) = / 8) by (unfold pow2; simpl; field).
  assert (Hn : 1 + pow2 (-26) <> 0) by lra.
  rewrite rnd32_nz by exact Hn.
  assert (He : expo32 (1 + pow2 (-26)) = 0%Z).
  { unfold expo32. rewrite Rabs_right by lra. rewrite (log2_floor_unique 0).
    - reflexivity.
    - rewrite pow2_0. split; [lra|]. simpl (0 + 1)%Z.
      assert (pow2 (-26) < pow2 0) by (apply pow2_lt; lia). rewrite pow2_0 in H.
      unfold pow2 at 2. simpl. lra. }
  rewrite He. simpl (0 - 23)%Z.
  pose proof (pow2_pos (-23)) as Hq.
  replace ((1 + pow2 (-26)) / pow2 (-23)) with (IZR (2 ^ 23) + pow2 (-3)).
  - rewrite round_ne_int_plus by lra. rewrite <- pow2_IZR by lia. lra.
  - rewrite <- pow2_IZR by lia. rewrite H26. rewrite H23 at 1. field. lra.
Qed.

Lemma fl32_1_plus : fl32 (1 + pow2 (-26)) = Fin 1.
Proof.
  unfold fl32. rewrite rnd32_1_plus.
  destruct (Rle_dec (pow2 128) (Rabs 1)) as [H|]; [|reflexivity].
  exfalso. destruct is_f32_1 as [_ H1]. lra.
Qed.

Lemma Rabs_le_bounds : forall x a, Rabs x <= a -> - a <= x <= a.
Proof.
  intros x a H. destruct (Rcase_abs x) as [Hx|Hx];
    [rewrite Rabs_left in H by exact Hx | rewrite Rabs_right in H by exact Hx]; lra.
Qed.

Lemma rnd32_err : forall x, Rabs (rnd32 x - x) <= pow2 (expo32 x - 24).
Proof.
  intro x. destruct (Req_EM_T x 0) as [->|Hx].
  - rewrite rnd32_0, Rminus_0_r, Rabs_R0. left. apply pow2_pos.
  - rewrite rnd32_nz by exact Hx. set (u := pow2 (expo32 x - 23)).
    assert (Hu : 0 < u) by apply pow2_pos.
    assert (Hu2 : u = 2 * pow2 (expo32 x - 24)).
    { unfold u. replace (expo32 x - 23)%Z with (1 + (expo32 x - 24))%Z by lia.
      rewrite pow2_add. f_equal. unfold pow2. simpl. ring. }
    pose proof (round_ne_near (x / u)) as Hn.
    replace (IZR (round_ne (x / u)) * u - x) with ((IZR (round_ne (x / u)) - x / u) * u)
      by (field; lra).
    rewrite Rabs_mult, (Rabs_right u) by lra.
    apply (Rmult_le_compat_r u) in Hn; [|lra]. lra.
Qed.

Lemma rnd32_rel_err : forall x, pow2 (-126) <= Rabs x ->
  Rabs (rnd32 x - x) <= Rabs x * pow2 (-24).
Proof.
  intros x Hx. eapply Rle_trans; [apply rnd32_err|].
  assert (Hax : 0 < Rabs x) by (pose proof (pow2_pos (-126)); lra).
  destruct (log2_floor_spec (Rabs x) Hax) as [Hlo Hhi].
  assert (Hk : (-126 <= log2_floor (Rabs x))%Z).
  { assert (pow2 (-126) < pow2 (log2_floor (Rabs x) + 1)) by lra.
    destruct (Z_le_gt_dec (-126) (log2_floor (Rabs x))) as [|Hgt]; [assumption|].
    pose proof (pow2_le (log2_floor (Rabs x) + 1) (-126) ltac:(lia)). lra. }
  assert (He : expo32 x = log2_floor (Rabs x)) by (unfold expo32; lia).
  rewrite He, <- Z.add_opp_r, pow2_add.
  apply Rmult_le_compat_r; [left; apply pow2_pos | exact Hlo].
Qed.

Lemma pow2_m24 : pow2 (-24) < 1 / 1000.
Proof. unfold pow2. simpl. lra. Qed.

Lemma pow2_m126_lt : pow2 (-126) < 1 / 2.
Proof.
  assert (pow2 (-126) < pow2 (-1)) by (apply pow2_lt; lia).
  replace (pow2 (-1)) with (1 / 2) in H by (unfold pow2; simpl; field). exact H.
Qed.

Lemma pow2_128_gt : 4 < pow2 128.
Proof.
  assert (pow2 2 < pow2 128) by (apply pow2_lt; lia).
  replace (pow2 2) with 4 in H by (unfold pow2; simpl; ring). exact H.
Qed.

Lemma round_ne_le : forall y n, y <= IZR n -> (round_ne y <= n)%Z.
Proof.
  intros y n Hy. pose proof (round_ne_near y) as Hn. apply Rabs_le_bounds in Hn.
  assert (IZR (round_ne y) < IZR (n + 1)) by (rewrite plus_IZR; lra).
  apply lt_IZR in H. lia.
Qed.

Lemma round_ne_nonneg : forall y, 0 <= y -> (0 <= round_ne y)%Z.
Proof.
  intros y Hy. pose proof (round_ne_near y) as Hn. apply Rabs_le_bounds in Hn.
  assert (IZR (-1) < IZR (round_ne y)) by lra.
  apply lt_IZR in H. lia.
Qed.

Lemma rnd32_nonneg : forall x, 0 <= x -> 0 <= rnd32 x.
Proof.
  intros x Hx. destruct (Req_EM_T x 0) as [->|Hnz]; [rewrite rnd32_0; lra|].
  rewrite rnd32_nz by exact Hnz. pose proof (pow2_pos (expo32 x - 23)) as Hu.
  apply Rmult_le_pos; [|lra]. apply IZR_le. apply round_ne_nonneg.
  unfold Rdiv. apply Rmult_le_pos; [exact Hx | left; apply Rinv_0_lt_compat; exact Hu].
Qed.

Lemma rnd32_le_pow2 : forall x k, (-126 <= k)%Z -> 0 <= x <= pow2 k -> rnd32 x <= pow2 k.
Proof.
  intros x k Hk [Hx0 Hxk]. destruct (Req_EM_T x 0) as [->|Hnz].
  { rewrite rnd32_0. left. apply pow2_pos. }
  rewrite rnd32_nz by exact Hnz. set (E := expo32 x). set (u := pow2 (E - 23)).
  assert (Hu : 0 < u) by apply pow2_pos.
  assert (Hax : 0 < Rabs x) by (apply Rabs_pos_lt; exact Hnz).
  destruct (log2_floor_spec (Rabs x) Hax) as [Hlo Hup].
  assert (HEf : E = Z.max (log2_floor (Rabs x)) (-126)) by reflexivity.
  set (f := log2_floor (Rabs x)) in *.
  assert (Hab : Rabs x = x) by (apply Rabs_right; lra).
  rewrite Hab in Hlo, Hup.
  assert (Hfk : (f <= k)%Z) by (apply pow2_le_inv; lra).
  assert (HEk : (E <= k)%Z) by lia.
  assert (HxE : x < pow2 (E + 1)).
  { eapply Rlt_le_trans; [exact Hup | apply pow2_le; lia]. }
  destruct (Z.eq_dec E k) as [HE|HE].
  - assert (Hy : x / u <= IZR (2 ^ 23)).
    { rewrite <- pow2_IZR by lia. unfold Rdiv. apply (Rmult_le_reg_r u); [exact Hu|].
      rewrite Rmult_assoc, Rinv_l, Rmult_1_r by lra. unfold u. rewrite <- pow2_add.
      replace (23 + (E - 23))%Z with k by lia. exact Hxk. }
    apply round_ne_le in Hy. apply IZR_le in Hy.
    apply Rle_trans with (IZR (2 ^ 23) * u); [apply Rmult_le_compat_r; lra|].
    rewrite <- pow2_IZR by lia. unfold u. rewrite <- pow2_add. right. f_equal. lia.
  - assert (Hy : x / u <= IZR (2 ^ 24)).
    { rewrite <- pow2_IZR by lia. unfold Rdiv. apply (Rmult_le_reg_r u); [exact Hu|].
      rewrite Rmult_assoc, Rinv_l, Rmult_1_r by lra. unfold u. rewrite <- pow2_add.
      replace (24 + (E - 23))%Z with (E + 1)%Z by lia. lra. }
    apply round_ne_le in Hy. apply IZR_le in Hy.
    apply Rle_trans with (IZR (2 ^ 24) * u); [apply Rmult_le_compat_r; lra|].
    rewrite <- pow2_IZR by lia. unfold u. rewrite <- pow2_add. apply pow2_le. lia.
Qed.

Lemma fl32_unit : forall x, 0 <= x <= 1 -> exists r, fl32 x = Fin r /\ 0 <= r <= 1.
Proof.
  intros x Hx. pose proof (rnd32_nonneg x (proj1 Hx)) as H0.
  assert (H1 : rnd32 x <= 1) by (rewrite <- pow2_0; apply rnd32_le_pow2; [lia | rewrite pow2_0; exact Hx]).
  unfold fl32. destruct (Rle_dec (pow2 128) (Rabs (rnd32 x))) as [C|_].
  - exfalso. rewrite Rabs_right in C by lra. pose proof pow2_128_gt. lra.
  - eexists. split; [reflexivity | lra].
Qed.

Lemma exp_neg_unit : forall s, 0 <= s -> 0 <= exp (- s) <= 1.
Proof.
  intros s Hs. split; [left; apply exp_pos|]. rewrite <- exp_0.
  destruct Hs as [Hs| <-]; [left; apply exp_increasing; lra | rewrite Ropp_0; lra].
Qed.

Lemma fl32_cases : forall y, fl32 y = Fin (rnd32 y) \/ fl32 y = Inf (is_neg y).
Proof.
  intro y. unfold fl32. destruct (Rle_dec (pow2 128) (Rabs (rnd32 y))); [right | left]; reflexivity.
Qed.

Lemma is_neg_sq : forall p, is_neg (p * p) = false.
Proof.
  intro p. unfold is_neg. destruct (Rlt_dec (p * p) 0) as [H|]; [|reflexivity].
  pose proof (Rle_0_sqr p). unfold Rsqr in *. lra.
Qed.

Lemma to32_exp_neg_inf : to32 (ext_exp (ext_neg (Inf false))) = Fin 0.
Proof. exact fl32_0. Qed.

Lemma gaussian32_value : forall e d, is_fin (fl32 e) -> is_fin d ->
  exists r, to32 (ext_exp (ext_neg (to32 (ext_sq (to32 (ext_mul (fl32 e) d)))))) = Fin r /\ 0 <= r <= 1.
Proof.
  intros e d [a Ha] [x ->]. rewrite Ha. cbn [ext_mul to32].
  destruct (fl32_cases (a * x)) as [Ep|Ep]; rewrite Ep.
  - cbn [ext_sq ext_mul to32].
    destruct (fl32_cases (rnd32 (a * x) * rnd32 (a * x))) as [Eq|Eq]; rewrite Eq.
    + cbn [ext_neg ext_exp to32]. apply fl32_unit. apply exp_neg_unit.
      apply rnd32_nonneg. apply Rle_0_sqr.
    + rewrite is_neg_sq. rewrite to32_exp_neg_inf. exists 0. split; [reflexivity | lra].
  - cbn [ext_sq ext_mul to32]. rewrite xorb_nilpotent, to32_exp_neg_inf.
    exists 0. split; [reflexivity | lra].
Qed.

(** *** [weighted_slerp] in an arithmetic *)

Lemma weighted_slerp_in_exact : forall t v0 v1,
  weighted_slerp_in exact_arith t v0 v1 = weighted_slerp t v0 v1.
Proof. reflexivity. Qed.

Lemma weighted_slerp_in_rows : forall A t v0 v1,
  weighted_slerp_in A t v0 v1 = mkT (shape v0) (zipw (slerp_row_in A t) (rows v0) (rows v1)).
Proof.
  intros A t [s0 rs0] [s1 rs1]. unfold weighted_slerp_in. cbn [shape rows]. f_equal.
  revert rs1. induction rs0 as [|r0 rs0 IH]; intros [|r1 rs1]; simpl; auto.
  f_equal; [|apply IH]. unfold slerp_row_in, slerp_angle_in, unit_copy_in.
  rewrite zipw_map. reflexivity.
Qed.

(** *** One-hot rows in float32 *)

Lemma fold_add32_zeros : forall k a, is_f32 a ->
  fold_left (a_add f32_arith) (repeat (Fin 0) k) (Fin a) = Fin a.
Proof.
  induction k as [|k IH]; intros a Ha; simpl; auto.
  rewrite Rplus_0_r, fl32_f32 by exact Ha. apply IH; exact Ha.
Qed.

Lemma sum_in_one_hot : forall k n,
  sum_in f32_arith (repeat (Fin 0) k ++ Fin 1 :: repeat (Fin 0) n) = Fin 1.
Proof.
  intros k n. unfold sum_in. rewrite fold_left_app, fold_add32_zeros by exact is_f32_0.
  simpl. rewrite Rplus_0_l, fl32_1. apply fold_add32_zeros. exact is_f32_1.
Qed.

Lemma map_one_hot : forall (f : ext -> ext) k n, f (Fin 0) = Fin 0 -> f (Fin 1) = Fin 1 ->
  map f (repeat (Fin 0) k ++ Fin 1 :: repeat (Fin 0) n) = repeat (Fin 0) k ++ Fin 1 :: repeat (Fin 0) n.
Proof.
  intros f k n H0 H1. rewrite map_app. simpl. rewrite H1, !map_repeat, H0. reflexivity.
Qed.

Lemma mul32_fin : forall x y, a_mul f32_arith (Fin x) (Fin y) = fl32 (x * y).
Proof. reflexivity. Qed.

Lemma div32_fin_1 : forall x, a_div f32_arith (Fin x) (Fin 1) = fl32 x.
Proof.
  intro x. simpl. destruct (Req_EM_T 1 0); [lra|]. unfold Rdiv. rewrite Rinv_1, Rmult_1_r.
  reflexivity.
Qed.

Lemma norm_in_one_hot : forall k n,
  norm_in f32_arith (repeat (Fin 0) k ++ Fin 1 :: repeat (Fin 0) n) = Fin 1.
Proof.
  intros k n. unfold norm_in. rewrite map_one_hot.
  - rewrite sum_in_one_hot. simpl. destruct (Rlt_dec 1 0); [lra|]. rewrite sqrt_1. exact fl32_1.
  - rewrite mul32_fin, Rmult_0_l. exact fl32_0.
  - rewrite mul32_fin, Rmult_1_l. exact fl32_1.
Qed.

Lemma unit_copy_in_one_hot : forall r, one_hot r -> unit_copy_in f32_arith r = r.
Proof.
  intros r [k [n ->]]. unfold unit_copy_in. rewrite norm_in_one_hot.
  apply map_one_hot; rewrite div32_fin_1; [exact fl32_0 | exact fl32_1].
Qed.

Lemma slerp_angle_in_one_hot : forall r, one_hot r -> slerp_angle_in f32_arith r r = Fin 0.
Proof.
  intros r Hr. unfold slerp_angle_in. rewrite unit_copy_in_one_hot by exact Hr.
  destruct Hr as [k [n ->]]. rewrite zipw_diag, map_one_hot.
  - rewrite sum_in_one_hot. simpl.
    destruct (Rle_dec (-1) 1); [|lra]. destruct (Rle_dec 1 1); [|lra].
    rewrite acos_1. exact fl32_0.
  - rewrite mul32_fin, Rmult_0_l. exact fl32_0.
  - rewrite mul32_fin, Rmult_1_l. exact fl32_1.
Qed.

Lemma f32_coef_zero_angle : forall s,
  a_div f32_arith (a_sin f32_arith (a_mul f32_arith (fl32 s) (Fin 0))) (a_sin f32_arith (Fin 0)) = NaN.
Proof.
  intro s. assert (Hs0 : a_sin f32_arith (Fin 0) = Fin 0).
  { simpl. rewrite sin_0. exact fl32_0. }
  rewrite Hs0. destruct (fl32 s) as [a|b|] eqn:E.
  - rewrite mul32_fin, Rmult_0_r, fl32_0, Hs0. simpl.
    destruct (Req_EM_T 0 0); [reflexivity | contradiction].
  - simpl. destruct (Req_EM_T 0 0); [reflexivity | contradiction].
  - reflexivity.
Qed.

Lemma slerp_row_in_one_hot : forall t r, one_hot r ->
  slerp_row_in f32_arith t r r = map (fun _ => NaN) r.
Proof.
  intros t r Hr. unfold slerp_row_in. cbv zeta. rewrite slerp_angle_in_one_hot by exact Hr.
  change (a_scalar f32_arith (1 - t)) with (fl32 (1 - t)).
  rewrite f32_coef_zero_angle, zipw_diag. apply map_ext. intro a. reflexivity.
Qed.

(** *** Endpoints in float32 *)

Lemma f32_combo_left : forall r0 r1, length r0 = length r1 ->
  Forall (fun x => exists r, x = Fin r /\ is_f32 r) r0 ->
  Forall (fun x => exists r, x = Fin r /\ is_f32 r) r1 ->
  zipw (fun a b => a_add f32_arith (a_mul f32_arith (Fin 1) a) (a_mul f32_arith (Fin 0) b)) r0 r1 = r0.
Proof.
  induction r0 as [|x r0 IH]; intros [|y r1] Hl H0 H1; simpl in Hl; try discriminate; auto.
  inversion H0 as [|? ? [a [-> Ha]] H0']; inversion H1 as [|? ? [b [-> Hb]] H1']; subst.
  cbn [zipw]. f_equal; [|apply IH; auto].
  rewrite !mul32_fin, Rmult_1_l, Rmult_0_l, (fl32_f32 a Ha), fl32_0.
  simpl. rewrite Rplus_0_r. apply fl32_f32. exact Ha.
Qed.

Lemma f32_combo_right : forall r0 r1, length r0 = length r1 ->
  Forall (fun x => exists r, x = Fin r /\ is_f32 r) r0 ->
  Forall (fun x => exists r, x = Fin r /\ is_f32 r) r1 ->
  zipw (fun a b => a_add f32_arith (a_mul f32_arith (Fin 0) a) (a_mul f32_arith (Fin 1) b)) r0 r1 = r1.
Proof.
  induction r0 as [|x r0 IH]; intros [|y r1] Hl H0 H1; simpl in Hl; try discriminate; auto.
  inversion H0 as [|? ? [a [-> Ha]] H0']; inversion H1 as [|? ? [b [-> Hb]] H1']; subst.
  cbn [zipw]. f_equal; [|apply IH; auto].
  rewrite !mul32_fin, Rmult_1_l, Rmult_0_l, (fl32_f32 b Hb), fl32_0.
  simpl. rewrite Rplus_0_l. apply fl32_f32. exact Hb.
Qed.

Lemma slerp_row_in_endpoints : forall r0 r1, length r0 = length r1 ->
  Forall (fun x => exists r, x = Fin r /\ is_f32 r) r0 ->
  Forall (fun x => exists r, x = Fin r /\ is_f32 r) r1 ->
  (exists s, s <> 0 /\ a_sin f32_arith (slerp_angle_in f32_arith r0 r1) = Fin s) ->
  slerp_row_in f32_arith 0 r0 r1 = r0 /\ slerp_row_in f32_arith 1 r0 r1 = r1.
Proof.
  intros r0 r1 Hl H0 H1 [s [Hs Hsin]].
  assert (Hw : exists w, slerp_angle_in f32_arith r0 r1 = Fin w /\ is_f32 w).
  { unfold slerp_angle_in in *. destruct (a_acos f32_arith _) as [w| |] eqn:E;
      try discriminate. exists w. split; [reflexivity|]. exact (to32_is_f32 _ _ E). }
  destruct Hw as [w [Ew Hw]].
  unfold slerp_row_in. cbv zeta. rewrite Ew in *.
  change (a_scalar f32_arith (1 - 0)) with (fl32 (1 - 0)).
  change (a_scalar f32_arith (1 - 1)) with (fl32 (1 - 1)).
  change (a_scalar f32_arith 0) with (fl32 0). change (a_scalar f32_arith 1) with (fl32 1).
  rewrite Rminus_0_r, Rminus_diag, fl32_0, fl32_1, !mul32_fin, Rmult_1_l, Rmult_0_l,
    fl32_0, (fl32_f32 w Hw), Hsin.
  assert (Hs0 : a_sin f32_arith (Fin 0) = Fin 0) by (simpl; rewrite sin_0; exact fl32_0).
  rewrite Hs0.
  assert (D1 : a_div f32_arith (Fin s) (Fin s) = Fin 1).
  { simpl. destruct (Req_EM_T s 0); [contradiction|].
    replace (s / s) with 1 by (field; exact Hs). exact fl32_1. }
  assert (D0 : a_div f32_arith (Fin 0) (Fin s) = Fin 0).
  { simpl. destruct (Req_EM_T s 0); [contradiction|].
    replace (0 / s) with 0 by (field; exact Hs). exact fl32_0. }
  rewrite D1, D0. split; [apply f32_combo_left | apply f32_combo_right]; auto.
Qed.

(** The float32 sine of the float32 angle [acos 0] is a non-zero number. *)
Lemma sin32_acos32_0 : exists s, s <> 0 /\
  a_sin f32_arith (a_acos f32_arith (Fin 0)) = Fin s.
Proof.
  pose proof PI_RGT_0 as Hpi. pose proof PI_4 as Hpi4. pose proof PI2_1 as Hpi1. pose proof pow2_m24 as H24.
  pose proof (pow2_pos (-24)) as H24'. pose proof pow2_m126_lt as H126.
  pose proof (pow2_pos (-126)) as H126'. pose proof pow2_128_gt as H128.
  remember (rnd32 (PI / 2)) as a eqn:Ea.
  assert (Ha : Rabs (a - PI / 2) <= PI / 2 * pow2 (-24)).
  { rewrite Ea. assert (E : pow2 (-126) <= Rabs (PI / 2)) by (rewrite Rabs_right by lra; lra).
    pose proof (rnd32_rel_err (PI / 2) E) as E'. rewrite (Rabs_right (PI / 2)) in E' by lra.
    exact E'. }
  apply Rabs_le_bounds in Ha.
  assert (Hsm : PI / 2 * pow2 (-24) <= PI / 2 * (1 / 1000)) by (apply Rmult_le_compat_l; lra).
  assert (Hacos : a_acos f32_arith (Fin 0) = Fin a).
  { simpl. destruct (Rle_dec (-1) 0); [|lra]. destruct (Rle_dec 0 1); [|lra].
    rewrite acos_0. cbn [to32]. unfold fl32. rewrite <- Ea.
    destruct (Rle_dec (pow2 128) (Rabs a)); [|reflexivity].
    rewrite Rabs_right in r1 by lra. lra. }
  rewrite Hacos.
  set (d := PI / 2 - a).
  assert (Hsin : 1 / 2 <= sin a).
  { rewrite <- cos_shift. fold d. rewrite <- cos_PI3.
    assert (Hd : cos d = cos (Rabs d)).
    { destruct (Rcase_abs d); [rewrite Rabs_left, cos_neg by assumption | rewrite Rabs_right by assumption]; reflexivity. }
    rewrite Hd. assert (Hd' : Rabs d <= PI / 3).
    { unfold d. apply Rabs_le. split; nra. }
    destruct Hd' as [Hd'|Hd']; [|rewrite Hd'; lra].
    left. apply cos_decreasing_1; try lra. apply Rabs_pos. }
  pose proof (SIN_bound a) as [_ Hs1].
  remember (rnd32 (sin a)) as s eqn:Es.
  assert (Hs : Rabs (s - sin a) <= sin a * pow2 (-24)).
  { rewrite Es. assert (E : pow2 (-126) <= Rabs (sin a)) by (rewrite Rabs_right by lra; lra).
    pose proof (rnd32_rel_err (sin a) E) as E'. rewrite (Rabs_right (sin a)) in E' by lra.
    exact E'. }
  apply Rabs_le_bounds in Hs.
  assert (Hsm' : sin a * pow2 (-24) <= sin a * (1 / 1000)) by (apply Rmult_le_compat_l; lra).
  exists s. split; [nra|].
  cbn [a_sin f32_arith ext_sin to32]. unfold fl32. rewrite <- Es. destruct (Rle_dec (pow2 128) (Rabs s)); [|reflexivity].
  rewrite Rabs_right in r by nra. nra.
Qed.

Lemma slerp_angle_in_e1_e2 :
  slerp_angle_in f32_arith [Fin 1; Fin 0] [Fin 0; Fin 1] = a_acos f32_arith (Fin 0).
Proof.
  unfold slerp_angle_in.
  rewrite (unit_copy_in_one_hot [Fin 1; Fin 0]) by (exists 0%nat, 1%nat; reflexivity).
  rewrite (unit_copy_in_one_hot [Fin 0; Fin 1]) by (exists 1%nat, 0%nat; reflexivity).
  unfold sum_in. cbn [zipw fold_left]. rewrite !mul32_fin, Rmult_0_r, Rmult_0_l, fl32_0.
  cbn [a_add f32_arith ext_add to32]. rewrite Rplus_0_r, fl32_0.
  cbn [a_add f32_arith ext_add to32]. rewrite Rplus_0_r, fl32_0. reflexivity.
Qed.

(** *** Concrete float32 inputs *)

Lemma pow2_13_sq : pow2 (-13) * pow2 (-13) = pow2 (-26).
Proof. rewrite <- pow2_add. reflexivity. Qed.

Lemma v_near_f32 : all_f32 v_near.
Proof.
  unfold all_f32, v_near. cbn [rows]. repeat constructor.
  - exists 1. split; [reflexivity | exact is_f32_1].
  - exists (pow2 (-13)). split; [reflexivity | apply is_f32_pow2; lia].
Qed.

Lemma row_e1_f32 : all_f32 row_e1.
Proof.
  unfold all_f32, row_e1. cbn [rows]. repeat constructor.
  - exists 1. split; [reflexivity | exact is_f32_1].
  - exists 0. split; [reflexivity | exact is_f32_0].
Qed.

Lemma row_e2_f32 : all_f32 row_e2.
Proof.
  unfold all_f32, row_e2. cbn [rows]. repeat constructor.
  - exists 0. split; [reflexivity | exact is_f32_0].
  - exists 1. split; [reflexivity | exact is_f32_1].
Qed.

Section EncodingFacts.

Variable vae_encode_mean : dtype -> tensor -> tensor.

Lemma linear_loop_run : forall xs acc m,
  linear_loop vae_encode_mean (Some acc) xs m =
  (m, Ok (Some (fold_left (fun b p => add_t b (scale (latent_of vae_encode_mean m (fst p)) (snd p)))
                 xs acc))).
Proof. induction xs as [|[img w] xs IH]; intros acc m; simpl; auto. apply IH. Qed.

Lemma slerp_loop_run : forall xs acc m,
  slerp_loop vae_encode_mean (Some acc) xs m =
  (m, Ok (Some (fold_left
                 (fun b p => weighted_slerp (snd p) b (latent_of vae_encode_mean m (fst p)))
                 xs acc))).
Proof. induction xs as [|[img w] xs IH]; intros acc m; simpl; auto. apply IH. Qed.

Lemma linear_loop_none_cons : forall img w xs,
  linear_loop vae_encode_mean None ((img, w) :: xs) =
  fun m => linear_loop vae_encode_mean (Some (scale (latent_of vae_encode_mean m img) w)) xs m.
Proof. reflexivity. Qed.

Lemma slerp_loop_none_cons : forall img w xs,
  slerp_loop vae_encode_mean None ((img, w) :: xs) =
  fun m => slerp_loop vae_encode_mean (Some (scale (latent_of vae_encode_mean m img) w)) xs m.
Proof. reflexivity. Qed.

Lemma encode_all_run : forall images m,
  encode_all vae_encode_mean images m = (m, Ok (map (latent_of vae_encode_mean m) images)).
Proof.
  induction images as [|img images IH]; intro m; simpl; auto.
  unfold bind, encode_latent. rewrite IH. reflexivity.
Qed.

Lemma images_encoding_run : forall images ws m,
  images_encoding vae_encode_mean images ws m =
  if (length images =? length ws)%nat then
    if isclose (py_sum ws) 1 then
      let m1 := with_vae_dtype m float32 in
      (with_vae_dtype m1 float16,
       Ok (match combine images ws with
           | [] => None
           | (img, w) :: xs =>
               Some (fold_left
                       (fun b p => add_t b (scale (latent_of vae_encode_mean m1 (fst p)) (snd p)))
                       xs (scale (latent_of vae_encode_mean m1 img) w))
           end))
    else (m, Error (AssertionError msg_sum))
  else (m, Error (AssertionError msg_len)).
Proof.
  intros images ws m. unfold images_encoding.
  destruct (combine images ws) as [|[img w] xs].
  - unfold bind, py_assert, ret, raise, vae_to.
    destruct (length images =? length ws)%nat; [|reflexivity].
    destruct (isclose (py_sum ws) 1); reflexivity.
  - rewrite linear_loop_none_cons. unfold bind, py_assert, ret, raise, vae_to.
    destruct (length images =? length ws)%nat; [|reflexivity].
    destruct (isclose (py_sum ws) 1); [|reflexivity].
    cbv beta iota. rewrite linear_loop_run. reflexivity.
Qed.

Lemma images_encoding_slerp_run : forall images ws m,
  images_encoding_slerp vae_encode_mean images ws m =
  if (length images =? length ws)%nat then
    if isclose (py_sum ws) 1 then
      let m1 := with_vae_dtype m float32 in
      (with_vae_dtype m1 float16,
       Ok (match combine images ws with
           | [] => None
           | (img, w) :: xs =>
               Some (fold_left
                       (fun b p => weighted_slerp (snd p) b (latent_of vae_encode_mean m1 (fst p)))
                       xs (scale (latent_of vae_encode_mean m1 img) w))
           end))
    else (m, Error (AssertionError msg_sum))
  else (m, Error (AssertionError msg_len)).
Proof.
  intros images ws m. unfold images_encoding_slerp.
  destruct (combine images ws) as [|[img w] xs].
  - unfold bind, py_assert, ret, raise, vae_to.
    destruct (length images =? length ws)%nat; [|reflexivity].
    destruct (isclose (py_sum ws) 1); reflexivity.
  - rewrite slerp_loop_none_cons. unfold bind, py_assert, ret, raise, vae_to.
    destruct (length images =? length ws)%nat; [|reflexivity].
    destruct (isclose (py_sum ws) 1); [|reflexivity].
    cbv beta iota. rewrite slerp_loop_run. reflexivity.
Qed.

Lemma images_encoding_barycentric_run : forall images ws m,
  images_encoding_barycentric vae_encode_mean images ws m =
  if (length images =? length ws)%nat then
    if isclose (py_sum ws) 1 then
      let m1 := with_vae_dtype m float32 in
      match barycentric_interpolation (map (latent_of vae_encode_mean m1) images) ws with
      | Ok t => (with_vae_dtype m1 float16, Ok t)
      | Error e => (m1, Error e)
      end
    else (m, Error (AssertionError msg_sum))
  else (m, Error (AssertionError msg_len)).
Proof.
  intros images ws m. unfold images_encoding_barycentric, bind, py_assert, ret, raise, vae_to.
  destruct (length images =? length ws)%nat; [|reflexivity].
  destruct (isclose (py_sum ws) 1); [|reflexivity].
  rewrite encode_all_run. unfold lift. cbv zeta.
  destruct (barycentric_interpolation _ _); reflexivity.
Qed.

Lemma images_encoding_rbf_run : forall images ws epsilon m,
  images_encoding_rbf vae_encode_mean images ws epsilon m =
  if (length images =? length ws)%nat then
    if isclose (py_sum ws) 1 then
      let m1 := with_vae_dtype m float32 in
      match rbf_interpolation (map (latent_of vae_encode_mean m1) images) ws epsilon with
      | Ok t => (with_vae_dtype m1 float16, Ok t)
      | Error e => (m1, Error e)
      end
    else (m, Error (AssertionError msg_sum))
  else (m, Error (AssertionError msg_len)).
Proof.
  intros images ws epsilon m. unfold images_encoding_rbf, bind, py_assert, ret, raise, vae_to.
  destruct (length images =? length ws)%nat; [|reflexivity].
  destruct (isclose (py_sum ws) 1); [|reflexivity].
  rewrite encode_all_run. unfold lift. cbv zeta.
  destruct (rbf_interpolation _ _ _); reflexivity.
Qed.

End EncodingFacts.

(** ** Claims *)

Section Claims.

Variable vae_encode_mean : dtype -> tensor -> tensor.

(** C5: the Linear Blend ([images_encoding], which starts from the first
    weighted latent) and the Barycentric Blend ([images_encoding_barycentric],
    which starts from zeros) return the same output and leave the model in
    the same state, on every input (exactly, not only within tolerance). *)
Theorem linear_blend_eq_barycentric : forall images ws m,
  images_encoding vae_encode_mean images ws m =
  (fst (images_encoding_barycentric vae_encode_mean images ws m),
   result_map Some (snd (images_encoding_barycentric vae_encode_mean images ws m))).
Proof.
  intros images ws m.
  rewrite images_encoding_run, images_encoding_barycentric_run.
  destruct (length images =? length ws)%nat eqn:Hlen; [|reflexivity].
  destruct (isclose (py_sum ws) 1) eqn:Hsum; [|reflexivity].
  cbv zeta. unfold barycentric_interpolation.
  rewrite length_map, Hlen, Hsum. simpl negb. cbv iota.
  destruct images as [|img images]; destruct ws as [|w ws]; try discriminate.
  - change (py_sum []) with 0 in Hsum. rewrite isclose_0_1 in Hsum. discriminate.
  - simpl map. simpl combine. simpl fold_left. cbv iota.
    rewrite add_zeros_scale, combine_map_l, fold_left_map_fuse. reflexivity.
Qed.

(** C9: every blend operation rejects an empty list of latents with an
    empty list of weights by a failed assert (the specification's
    InvalidArgument), before any computation and with the model untouched:
    [sum([])] is 0, which is not close to 1. *)
Theorem empty_blend_rejected : forall m epsilon,
  images_encoding vae_encode_mean [] [] m = (m, Error (AssertionError msg_sum)) /\
  images_encoding_slerp vae_encode_mean [] [] m = (m, Error (AssertionError msg_sum)) /\
  images_encoding_barycentric vae_encode_mean [] [] m = (m, Error (AssertionError msg_sum)) /\
  images_encoding_rbf vae_encode_mean [] [] epsilon m = (m, Error (AssertionError msg_sum)) /\
  barycentric_interpolation [] [] = Error (AssertionError "Weights must sum to 1.") /\
  rbf_interpolation [] [] epsilon = Error (AssertionError "Weights must sum to 1.").
Proof.
  intros m epsilon.
  rewrite images_encoding_run, images_encoding_slerp_run, images_encoding_barycentric_run,
    images_encoding_rbf_run.
  unfold barycentric_interpolation, rbf_interpolation.
  change (py_sum []) with 0. rewrite isclose_0_1. simpl.
  repeat split.
Qed.

(** C3 (amended): every blend operation fails with an assertion error
    before any computation (model untouched) exactly when the number of
    latents differs from the number of weights or [np.isclose(sum(weights), 1.0)]
    fails, i.e. [|sum(weights) - 1| > 1e-8 + 1e-5]; otherwise no assertion
    error is raised. *)
Theorem blend_validation : forall images latents ws epsilon m,
  (rejected m (images_encoding vae_encode_mean images ws m)
     <-> ~ weights_valid (length images) ws) /\
  (rejected m (images_encoding_slerp vae_encode_mean images ws m)
     <-> ~ weights_valid (length images) ws) /\
  (rejected m (images_encoding_barycentric vae_encode_mean images ws m)
     <-> ~ weights_valid (length images) ws) /\
  (rejected m (images_encoding_rbf vae_encode_mean images ws epsilon m)
     <-> ~ weights_valid (length images) ws) /\
  (is_assertion_error (barycentric_interpolation latents ws) = true
     <-> ~ weights_valid (length latents) ws) /\
  (is_assertion_error (rbf_interpolation latents ws epsilon) = true
     <-> ~ weights_valid (length latents) ws).
Proof.
  intros images latents ws epsilon m.
  rewrite <- !checks_pass_spec, barycentric_assertion, rbf_assertion.
  split; [|split; [|split; [|split; [|split]]]]; try apply negb_true_not;
    rewrite ?images_encoding_run, ?images_encoding_slerp_run,
      ?images_encoding_barycentric_run, ?images_encoding_rbf_run;
    unfold rejected, checks_pass; cbv zeta;
    set (ls := map (latent_of vae_encode_mean (with_vae_dtype m float32)) images);
    pose proof (barycentric_assertion ls ws) as HB;
    pose proof (rbf_assertion ls ws epsilon) as HR;
    unfold checks_pass in HB, HR; unfold ls in HB, HR; rewrite length_map in HB, HR; fold ls in HB, HR;
    destruct (length images =? length ws)%nat; destruct (isclose (py_sum ws) 1);
    simpl andb in *; simpl negb in *;
    (split; [intros [msg Hm] | intro Hn]);
    try discriminate; try (exfalso; apply Hn; reflexivity); try (eexists; reflexivity).
  - destruct (barycentric_interpolation ls ws) as [t|e]; [discriminate|].
    injection Hm as _ He. subst e. discriminate HB.
  - destruct (rbf_interpolation ls ws epsilon) as [t|e]; [discriminate|].
    injection Hm as _ He. subst e. discriminate HR.
Qed.

(** C8 (amended): an encoder call that returns a value leaves the VAE in
    float16, whatever precision it had on entry (the model comes back
    unchanged only when it entered in float16); a call rejected by the
    asserts leaves the model unchanged; an error raised after the asserts
    leaves the VAE in float32. The blend functions themselves do not
    receive the model. *)
Theorem blend_precision_effect : forall images ws epsilon m,
  precision_effect m (images_encoding vae_encode_mean images ws m) /\
  precision_effect m (images_encoding_slerp vae_encode_mean images ws m) /\
  precision_effect m (images_encoding_barycentric vae_encode_mean images ws m) /\
  precision_effect m (images_encoding_rbf vae_encode_mean images ws epsilon m).
Proof.
  intros images ws epsilon m.
  rewrite images_encoding_run, images_encoding_slerp_run, images_encoding_barycentric_run,
    images_encoding_rbf_run.
  pose proof (barycentric_assertion (map (latent_of vae_encode_mean (with_vae_dtype m float32)) images) ws) as HB.
  pose proof (rbf_assertion (map (latent_of vae_encode_mean (with_vae_dtype m float32)) images) ws epsilon) as HR.
  unfold checks_pass in HB, HR. rewrite length_map in HB, HR.
  destruct (length images =? length ws)%nat; destruct (isclose (py_sum ws) 1); cbv zeta;
    simpl in HB, HR; unfold precision_effect; repeat split.
  - destruct (barycentric_interpolation _ _) as [t|[msg|msg|msg]]; simpl in HB; try discriminate;
      reflexivity.
  - destruct (rbf_interpolation _ _ _) as [t|[msg|msg|msg]]; simpl in HR; try discriminate;
      reflexivity.
Qed.

(** C2: the [weights] of [rbf_interpolation] only reach the asserts: two
    weight vectors that both pass them give the same output. *)
Theorem rbf_ignores_weights : forall latents ws ws' epsilon,
  weights_valid (length latents) ws -> weights_valid (length latents) ws' ->
  rbf_interpolation latents ws epsilon = rbf_interpolation latents ws' epsilon.
Proof.
  intros latents ws ws' epsilon Hw Hw'.
  apply checks_pass_spec in Hw, Hw'. unfold checks_pass in Hw, Hw'.
  apply andb_true_iff in Hw as [Hl Hs]. apply andb_true_iff in Hw' as [Hl' Hs'].
  unfold rbf_interpolation. rewrite Hl, Hs, Hl', Hs'. reflexivity.
Qed.

(** C4: for N >= 1 latents of one shape that pass the asserts,
    [rbf_interpolation] returns a tensor of shape [(N, *shape of a latent)]:
    the einsum ['ij,i...->j...'] keeps the index [j], so the output holds N
    blended latents, not one. *)
Theorem rbf_output_has_leading_axis : forall l0 ls ws epsilon,
  weights_valid (S (length ls)) ws ->
  Forall (fun t => shape t = shape l0) ls ->
  exists out, rbf_interpolation (l0 :: ls) ws epsilon = Ok out /\
              shape out = S (length ls) :: shape l0.
Proof.
  intros l0 ls ws epsilon Hw Hs.
  apply checks_pass_spec in Hw. unfold checks_pass in Hw.
  apply andb_true_iff in Hw as [Hl Hc].
  unfold rbf_interpolation. simpl length at 1. rewrite Hl, Hc. simpl negb. cbv iota.
  rewrite stack_same_shape by exact Hs. cbv zeta.
  eexists. split; [reflexivity|].
  unfold einsum_ij_i_j. cbn [shape tl]. unfold view_rows.
  rewrite kernel_width, chunk_length. reflexivity.
Qed.

(** C7: for a single finite latent [L] the output holds exactly the values
    of [L] (distance 0, kernel [[1]]), but with a leading axis of size 1:
    it is [L] stacked, of shape [(1, *L.shape)], not [L] itself. *)
Theorem rbf_single_latent : forall L ws epsilon,
  weights_valid 1 ws -> all_fin L ->
  rbf_interpolation [L] ws epsilon = Ok (mkT (1%nat :: shape L) (rows L)) /\
  mkT (1%nat :: shape L) (rows L) <> L.
Proof.
  intros L ws epsilon Hw Hfin. split.
  2:{ destruct L as [s rs]. simpl. intro H. injection H as H.
      apply (f_equal (@length nat)) in H. simpl in H. lia. }
  apply checks_pass_spec in Hw. unfold checks_pass in Hw.
  apply andb_true_iff in Hw as [Hl Hc].
  unfold rbf_interpolation. simpl length at 1. rewrite Hl, Hc. simpl negb. cbv iota.
  rewrite (stack_same_shape L []) by constructor. cbv zeta.
  unfold view_rows. simpl flat_map. rewrite app_nil_r. cbn [rows length].
  rewrite Nat.div_1_r. cbn [chunk]. rewrite firstn_all.
  unfold cdist. cbn [map]. rewrite dist2_self.
  2:{ unfold all_fin in Hfin. induction Hfin; simpl; auto. apply Forall_app; auto. }
  unfold gaussian_rbf, normalize_rows.
  unfold einsum_ij_i_j. cbn [shape tl length map nth seq flat_map]. unfold slices.
  cbn [shape hd]. rewrite Nat.div_1_r. cbn [chunk]. rewrite firstn_all.
  rewrite gaussian_at_0, normalize_single.
  cbn [rows]. rewrite contract_single by exact Hfin. rewrite app_nil_r. reflexivity.
Qed.


(** C1 (amended): [weighted_slerp] has no colinear fallback.  For a tensor
    [v] whose last-axis rows are one-hot (one entry 1, the others 0, as in
    [[1.0]]), [weighted_slerp(t, v, v)] is NaN in every element, for every
    [t], both in exact arithmetic and in float32: the dot product of the
    normalised rows is exactly 1, [omega = acos 1 = 0], [sin(omega) = 0] and
    both coefficients are [0/0]. *)
Theorem weighted_slerp_self_nan : forall t v,
  Forall one_hot (rows v) ->
  weighted_slerp t v v = mkT (shape v) (map (map (fun _ => NaN)) (rows v)) /\
  weighted_slerp_in f32_arith t v v = mkT (shape v) (map (map (fun _ => NaN)) (rows v)).
Proof.
  intros t [s rs] H. cbn [shape rows] in *. split.
  - rewrite weighted_slerp_spec_eq. unfold weighted_slerp_spec. cbn [shape rows]. f_equal.
    rewrite zipw_diag. apply map_ext_in. intros r Hr. rewrite Forall_forall in H.
    destruct (H r Hr) as [k [n ->]]. apply slerp_row_self_nan.
    + destruct k; discriminate.
    + apply Forall_app. split.
      * apply Forall_forall. intros x Hx. apply repeat_spec in Hx. subst. eexists; reflexivity.
      * constructor; [eexists; reflexivity|].
        apply Forall_forall. intros x Hx. apply repeat_spec in Hx. subst. eexists; reflexivity.
  - rewrite weighted_slerp_in_rows. cbn [shape rows]. f_equal.
    rewrite zipw_diag. apply map_ext_in. intros r Hr. rewrite Forall_forall in H.
    apply slerp_row_in_one_hot. auto.
Qed.

(** C10 (amended): in float32, when [v0] and [v1] have one shape, hold
    float32 numbers, and every pair of last-axis rows has one length and a
    non-zero computed [sin(omega)], [weighted_slerp(0.0, v0, v1)] is [v0] and
    [weighted_slerp(1.0, v0, v1)] is [v1], exactly. *)
Theorem weighted_slerp_endpoints : forall v0 v1,
  shape v0 = shape v1 -> all_f32 v0 -> all_f32 v1 ->
  Forall2 (fun r0 r1 => length r0 = length r1 /\
                        exists s, s <> 0 /\ a_sin f32_arith (slerp_angle_in f32_arith r0 r1) = Fin s)
          (rows v0) (rows v1) ->
  weighted_slerp_in f32_arith 0 v0 v1 = v0 /\ weighted_slerp_in f32_arith 1 v0 v1 = v1.
Proof.
  intros [s0 rs0] [s1 rs1] Hs H0 H1 H2. unfold all_f32 in *. cbn [shape rows] in *. subst s1.
  rewrite !weighted_slerp_in_rows. cbn [shape rows].
  assert (HL : zipw (slerp_row_in f32_arith 0) rs0 rs1 = rs0 /\
               zipw (slerp_row_in f32_arith 1) rs0 rs1 = rs1).
  { revert H0 H1. induction H2 as [|r0 r1 rs0 rs1 [Hl Hsin] _ IH]; intros H0 H1; simpl; auto.
    inversion H0 as [|? ? Hr0 Hrs0]; inversion H1 as [|? ? Hr1 Hrs1]; subst.
    destruct (slerp_row_in_endpoints r0 r1 Hl Hr0 Hr1 Hsin) as [E0 E1].
    destruct (IH Hrs0 Hrs1) as [F0 F1]. rewrite E0, E1, F0, F1. split; reflexivity. }
  destruct HL as [-> ->]. split; reflexivity.
Qed.

End Claims.

(** ** Counterexamples and witnesses *)

Lemma py_sum_single : forall w, py_sum [w] = w.
Proof. intro w. unfold py_sum. simpl. ring. Qed.

(** C8: a model whose VAE is in float32 on entry comes back in float16. *)
Lemma images_encoding_changes_precision :
  fst (images_encoding id_vae [black_pixel] [1] model_f32) <> model_f32.
Proof.
  rewrite images_encoding_run. simpl Nat.eqb. rewrite py_sum_single, isclose_1_1.
  simpl. discriminate.
Qed.

(** C3: weights summing to [1 + 5e-6] are farther than 1e-6 from 1, yet the
    asserts accept them. *)
Lemma isclose_accepts_beyond_1e6 :
  1 / 1000000 < Rabs (py_sum [1 + 5 / 1000000] - 1) /\
  is_assertion_error (barycentric_interpolation [black_pixel] [1 + 5 / 1000000]) = false.
Proof.
  rewrite py_sum_single. replace (1 + 5 / 1000000 - 1) with (5 / 1000000) by field.
  rewrite Rabs_right by lra. split; [lra|].
  unfold barycentric_interpolation. simpl Nat.eqb. rewrite py_sum_single.
  replace (isclose (1 + 5 / 1000000) 1) with true; [reflexivity|].
  symmetry. apply isclose_spec. replace (1 + 5 / 1000000 - 1) with (5 / 1000000) by field.
  rewrite Rabs_right by lra. unfold atol, rtol. lra.
Qed.

Lemma weights_valid_halves : weights_valid 2 [1 / 2; 1 / 2].
Proof.
  split; [reflexivity|]. unfold py_sum; simpl.
  replace (0 + 1 / 2 + 1 / 2 - 1) with 0 by field. rewrite Rabs_R0. unfold atol, rtol. lra.
Qed.

Lemma weights_valid_quarters : weights_valid 2 [1 / 4; 3 / 4].
Proof.
  split; [reflexivity|]. unfold py_sum; simpl.
  replace (0 + 1 / 4 + 3 / 4 - 1) with 0 by field. rewrite Rabs_R0. unfold atol, rtol. lra.
Qed.

Lemma weights_valid_one : weights_valid 1 [1].
Proof.
  split; [reflexivity|]. rewrite py_sum_single.
  replace (1 - 1) with 0 by ring. rewrite Rabs_R0. unfold atol, rtol. lra.
Qed.

Lemma latent_12_fin : all_fin latent_12.
Proof. repeat constructor; eexists; reflexivity. Qed.

Lemma rbf_ignores_weights_witness :
  weights_valid 2 [1 / 2; 1 / 2] /\ weights_valid 2 [1 / 4; 3 / 4] /\
  rbf_interpolation [latent_12; latent_12] [1 / 2; 1 / 2] 1 =
  rbf_interpolation [latent_12; latent_12] [1 / 4; 3 / 4] 1.
Proof.
  split; [exact weights_valid_halves|]. split; [exact weights_valid_quarters|].
  apply rbf_ignores_weights; [exact weights_valid_halves | exact weights_valid_quarters].
Defined.

Lemma rbf_output_has_leading_axis_witness :
  weights_valid 2 [1 / 2; 1 / 2] /\ Forall (fun t => shape t = shape latent_12) [latent_12] /\
  exists out, rbf_interpolation [latent_12; latent_12] [1 / 2; 1 / 2] 1 = Ok out /\
              shape out = [2%nat; 1%nat; 2%nat].
Proof.
  split; [exact weights_valid_halves|]. split; [repeat constructor|].
  apply (rbf_output_has_leading_axis latent_12 [latent_12] [1 / 2; 1 / 2] 1).
  - exact weights_valid_halves.
  - repeat constructor.
Defined.

Lemma rbf_single_latent_witness :
  weights_valid 1 [1] /\ all_fin latent_12 /\
  rbf_interpolation [latent_12] [1] 1 = Ok (mkT [1%nat; 1%nat; 2%nat] [[Fin 1; Fin 2]]) /\
  mkT [1%nat; 1%nat; 2%nat] [[Fin 1; Fin 2]] <> latent_12.
Proof.
  split; [exact weights_valid_one|]. split; [exact latent_12_fin|].
  apply (rbf_single_latent latent_12 [1] 1); [exact weights_valid_one | exact latent_12_fin].
Defined.

(** C1: two identical latents [[1.0]] give NaN, not [v0], in exact
    arithmetic and in float32. *)
Lemma weighted_slerp_colinear_nan :
  weighted_slerp (1 / 2) latent_1 latent_1 = mkT [1%nat] [[NaN]] /\
  weighted_slerp_in f32_arith (1 / 2) latent_1 latent_1 = mkT [1%nat] [[NaN]] /\
  weighted_slerp (1 / 2) latent_1 latent_1 <> latent_1.
Proof.
  assert (H : weighted_slerp (1 / 2) latent_1 latent_1 = mkT [1%nat] [[NaN]]).
  { rewrite weighted_slerp_spec_eq. unfold weighted_slerp_spec, latent_1.
    cbn [shape rows zipw]. rewrite slerp_row_self_nan; [reflexivity | discriminate |].
    repeat constructor. eexists; reflexivity. }
  split; [exact H|]. split.
  - rewrite weighted_slerp_in_rows. unfold latent_1. cbn [shape rows zipw].
    rewrite slerp_row_in_one_hot by (exists 0%nat, 0%nat; reflexivity). reflexivity.
  - rewrite H. discriminate.
Qed.

(** C10: [[1, 2^-13]] and [[1, 0]] are not colinear, but in float32 the dot
    product of their normalised rows is exactly 1 ([1 + 2^-26] rounds to 1 in
    the norm), so [omega = 0] and [weighted_slerp(0.0, v0, v1)] is NaN, not [v0]. *)
Lemma weighted_slerp_nearly_parallel_nan :
  (forall c, ~ (1 = c * 1 /\ pow2 (-13) = c * 0)) /\
  all_f32 v_near /\ all_f32 row_e1 /\
  weighted_slerp_in f32_arith 0 v_near row_e1 = mkT [1%nat; 2%nat] [[NaN; NaN]] /\
  weighted_slerp_in f32_arith 0 v_near row_e1 <> v_near.
Proof.
  assert (Hp : 0 < pow2 (-13)) by apply pow2_pos.
  assert (E : weighted_slerp_in f32_arith 0 v_near row_e1 = mkT [1%nat; 2%nat] [[NaN; NaN]]).
  { rewrite weighted_slerp_in_rows. unfold v_near, row_e1. cbn [shape rows zipw]. do 3 f_equal.
    assert (N0 : norm_in f32_arith [Fin 1; Fin (pow2 (-13))] = Fin 1).
    { unfold norm_in, sum_in. cbn [map fold_left].
      rewrite !mul32_fin, Rmult_1_l, pow2_13_sq, fl32_1, (fl32_f32 (pow2 (-26))) by (apply is_f32_pow2; lia).
      cbn [a_add f32_arith ext_add to32]. rewrite Rplus_0_l, fl32_1. cbn [a_add f32_arith ext_add to32]. rewrite fl32_1_plus. simpl.
      destruct (Rlt_dec 1 0); [lra|]. rewrite sqrt_1. exact fl32_1. }
    assert (N1 : norm_in f32_arith [Fin 1; Fin 0] = Fin 1).
    { apply (norm_in_one_hot 0 1). }
    assert (Hang : slerp_angle_in f32_arith [Fin 1; Fin (pow2 (-13))] [Fin 1; Fin 0] = Fin 0).
    { unfold slerp_angle_in, unit_copy_in. rewrite N0, N1. cbn [map zipw].
      rewrite !div32_fin_1, fl32_1, fl32_0, (fl32_f32 (pow2 (-13))) by (apply is_f32_pow2; lia).
      unfold sum_in. cbn [fold_left].
      rewrite !mul32_fin, Rmult_1_l, Rmult_0_r, fl32_1, fl32_0.
      simpl. rewrite Rplus_0_l, fl32_1. simpl. rewrite Rplus_0_r, fl32_1. simpl.
      destruct (Rle_dec (-1) 1); [|lra]. destruct (Rle_dec 1 1); [|lra].
      rewrite acos_1. exact fl32_0. }
    unfold slerp_row_in. cbv zeta. rewrite Hang.
    change (a_scalar f32_arith (1 - 0)) with (fl32 (1 - 0)).
    rewrite f32_coef_zero_angle. reflexivity. }
  split.
  - intros c [H1 H2]. lra.
  - split; [exact v_near_f32|]. split; [exact row_e1_f32|]. split; [exact E|].
    rewrite E. unfold v_near. intro H. injection H as H. discriminate.
Qed.

Lemma weighted_slerp_endpoints_witness :
  shape row_e1 = shape row_e2 /\ all_f32 row_e1 /\ all_f32 row_e2 /\
  weighted_slerp_in f32_arith 0 row_e1 row_e2 = row_e1 /\
  weighted_slerp_in f32_arith 1 row_e1 row_e2 = row_e2.
Proof.
  split; [reflexivity|]. split; [exact row_e1_f32|]. split; [exact row_e2_f32|].
  apply weighted_slerp_endpoints; [reflexivity | exact row_e1_f32 | exact row_e2_f32 |].
  constructor; [|constructor]. split; [reflexivity|].
  unfold row_e1, row_e2. cbn [rows]. rewrite slerp_angle_in_e1_e2. exact sin32_acos32_0.
Defined.


Lemma weighted_slerp_self_nan_witness :
  Forall one_hot (rows row_e1) /\
  weighted_slerp (1 / 2) row_e1 row_e1 = mkT [1%nat; 2%nat] [[NaN; NaN]] /\
  weighted_slerp_in f32_arith (1 / 2) row_e1 row_e1 = mkT [1%nat; 2%nat] [[NaN; NaN]].
Proof.
  assert (H : Forall one_hot (rows row_e1)).
  { constructor; [exists 0%nat, 1%nat; reflexivity | constructor]. }
  split; [exact H|]. exact (weighted_slerp_self_nan (1 / 2) row_e1 H).
Defined.

(** ** Further properties of the code *)

(** *** Helpers *)


Lemma valid_nonempty : forall (A : Type) (l : list A) ws,
  weights_valid (length l) ws -> l <> [] /\ ws <> [].
Proof.
  intros A l ws Hw. apply checks_pass_spec in Hw. unfold checks_pass in Hw.
  apply andb_true_iff in Hw as [Hl Hc]. apply Nat.eqb_eq in Hl.
  destruct ws as [|w ws].
  - change (py_sum []) with 0 in Hc. rewrite isclose_0_1 in Hc. discriminate.
  - destruct l; [discriminate|]. split; discriminate.
Qed.

Lemma barycentric_fold_shape : forall xs acc,
  shape (fold_left (fun b lw => add_t b (scale (fst lw) (snd lw))) xs acc) = shape acc.
Proof. induction xs as [|x xs IH]; intro acc; simpl; auto. rewrite IH. reflexivity. Qed.

Lemma barycentric_ok : forall latents ws, weights_valid (length latents) ws ->
  exists l0 rest t, latents = l0 :: rest /\ barycentric_interpolation latents ws = Ok t /\
                    shape t = shape l0.
Proof.
  intros latents ws Hw. destruct (valid_nonempty _ latents ws Hw) as [Hne _].
  apply checks_pass_spec in Hw. unfold checks_pass in Hw.
  apply andb_true_iff in Hw as [Hl Hc].
  destruct latents as [|l0 rest]; [congruence|].
  exists l0, rest. eexists. split; [reflexivity|]. split.
  - unfold barycentric_interpolation. rewrite Hl, Hc. reflexivity.
  - rewrite barycentric_fold_shape. reflexivity.
Qed.

Lemma gaussian_fin : forall epsilon d,
  ext_exp (ext_neg (ext_sq (ext_mul (Fin epsilon) (Fin d)))) =
  Fin (exp (- (epsilon * d * (epsilon * d)))).
Proof. reflexivity. Qed.

Lemma gaussian_value_range : forall epsilon d,
  0 < exp (- (epsilon * d * (epsilon * d))) <= 1.
Proof.
  intros epsilon d. split; [apply exp_pos|].
  rewrite <- exp_0. destruct (Req_dec (epsilon * d) 0) as [H0|H0].
  - rewrite H0. replace (- (0 * 0)) with 0 by ring. lra.
  - left. apply exp_increasing. pose proof (Rle_0_sqr (epsilon * d)) as Hs. unfold Rsqr in Hs.
    assert (epsilon * d * (epsilon * d) <> 0) by (intro Hz; apply H0; destruct (Rmult_integral _ _ Hz); auto).
    lra.
Qed.

Lemma forallb_shape_false : forall l0 ls,
  Exists (fun t => shape t <> shape l0) ls ->
  forallb (fun t => if list_eq_dec Nat.eq_dec (shape t) (shape l0) then true else false) ls = false.
Proof.
  intros l0 ls H. induction H as [t ls Ht|t ls _ IH]; simpl.
  - destruct (list_eq_dec _ _ _); [contradiction | reflexivity].
  - rewrite IH. apply andb_false_r.
Qed.

Lemma ext_add_comm : forall a b, ext_add a b = ext_add b a.
Proof.
  intros [x|s|] [y|s'|]; simpl; try reflexivity.
  - f_equal; ring.
  - destruct s, s'; reflexivity.
Qed.

Lemma ext_mul_comm : forall a b, ext_mul a b = ext_mul b a.
Proof.
  intros [x|s|] [y|s'|]; simpl; try reflexivity.
  - f_equal; ring.
  - rewrite xorb_comm. reflexivity.
Qed.

Lemma zipw_swap : forall (A B C : Type) (f : A -> B -> C) l1 l2,
  zipw f l1 l2 = zipw (fun b a => f a b) l2 l1.
Proof. intros A B C f l1. induction l1; intros [|b l2]; simpl; f_equal; auto. Qed.

Lemma zipw_ext : forall (A B C : Type) (f g : A -> B -> C) l1 l2,
  (forall a b, f a b = g a b) -> zipw f l1 l2 = zipw g l1 l2.
Proof. intros A B C f g l1. induction l1; intros [|b l2] H; simpl; f_equal; auto. Qed.

Lemma slerp_angle_comm : forall r0 r1, slerp_angle r0 r1 = slerp_angle r1 r0.
Proof.
  intros r0 r1. unfold slerp_angle. f_equal. f_equal.
  rewrite zipw_swap. apply zipw_ext. intros; apply ext_mul_comm.
Qed.

Lemma slerp_row_swap : forall t r0 r1, slerp_row_spec t r0 r1 = slerp_row_spec (1 - t) r1 r0.
Proof.
  intros t r0 r1. unfold slerp_row_spec. rewrite slerp_angle_comm.
  replace (1 - (1 - t)) with t by ring.
  rewrite zipw_swap. apply zipw_ext. intros; apply ext_add_comm.
Qed.

Lemma ext_mul_nan_r : forall x, ext_mul x NaN = NaN.
Proof. intros [x|s|]; reflexivity. Qed.

Lemma unit_copy_degenerate : forall r, degenerate_row r -> Forall (fun x => x = NaN) (unit_copy r).
Proof.
  intros r [Hz|Hn].
  - assert (Hf : Forall is_fin r) by (eapply Forall_impl; [|exact Hz]; intros x ->; eexists; reflexivity).
    destruct (fin_list r Hf) as [xs ->].
    assert (Hxs : Forall (fun x => x = 0) xs).
    { apply Forall_map in Hz. eapply Forall_impl; [|exact Hz]. intros a Ha. congruence. }
    rewrite unit_copy_fin_zero.
    + apply Forall_map. apply Forall_forall. reflexivity.
    + clear Hz Hf. induction Hxs as [|x xs -> _ IH]; simpl; [reflexivity|]. rewrite IH. ring.
  - destruct r as [|x r]; [constructor|].
    inversion Hn as [|? ? Hx _]; subst x.
    assert (Hs : ext_sum (map ext_sq (NaN :: r)) = NaN)
      by (unfold ext_sum; simpl; apply fold_ext_add_nan).
    unfold unit_copy. rewrite Hs. simpl ext_sqrt.
    apply Forall_forall. intros y Hy. apply in_map_iff in Hy as [z [<- _]]. destruct z; reflexivity.
Qed.

Lemma slerp_row_nan : forall t r0 r1,
  Forall (fun x => x = NaN) (unit_copy r0) \/ Forall (fun x => x = NaN) (unit_copy r1) ->
  Forall (fun x => x = NaN) (slerp_row_spec t r0 r1).
Proof.
  intros t r0 r1 H. unfold slerp_row_spec.
  destruct r0 as [|a r0]; [constructor|]. destruct r1 as [|b r1]; [constructor|].
  assert (Ha : slerp_angle (a :: r0) (b :: r1) = NaN).
  { unfold slerp_angle. unfold unit_copy in *. cbn [map zipw] in *.
    destruct H as [H|H]; inversion H as [|? ? Hx _]; rewrite Hx;
      [| rewrite ext_mul_nan_r]; unfold ext_sum; cbn [fold_left]; simpl ext_add at 2;
      rewrite fold_ext_add_nan; reflexivity. }
  rewrite Ha. cbv zeta. cbn [ext_sin ext_mul ext_div].
  assert (Hall : forall l0 l1, Forall (fun x => x = NaN)
            (zipw (fun a b => ext_add (ext_mul NaN a) (ext_mul NaN b)) l0 l1)).
  { induction l0 as [|x l0 IH]; intros [|y l1]; simpl; constructor; auto. }
  apply Hall.
Qed.

Lemma weighted_slerp_degenerate_rows : forall t v0 v1,
  Forall degenerate_row (rows v0) \/ Forall degenerate_row (rows v1) ->
  all_nan (weighted_slerp t v0 v1).
Proof.
  intros t [s0 rs0] [s1 rs1] H. rewrite weighted_slerp_spec_eq.
  unfold all_nan, weighted_slerp_spec. cbn [shape rows] in *.
  revert rs1 H. induction rs0 as [|r0 rs0 IH]; intros [|r1 rs1] H; simpl; constructor.
  - apply slerp_row_nan. destruct H as [H|H]; inversion H; subst;
      [left | right]; apply unit_copy_degenerate; auto.
  - apply IH. destruct H as [H|H]; inversion H; auto.
Qed.




Lemma nth_nth_forall : forall (P : ext -> Prop) (rs : list (list ext)) k c,
  Forall (Forall P) rs -> (k < length rs)%nat -> (c < length (nth k rs []))%nat ->
  P (nth c (nth k rs []) NaN).
Proof.
  intros P rs k c H Hk Hc. rewrite Forall_forall in H.
  specialize (H _ (nth_In rs [] Hk)). rewrite Forall_forall in H. apply H. apply nth_In. exact Hc.
Qed.

(** *** Properties *)

Section Extras.

Variable vae_encode_mean : dtype -> tensor -> tensor.

Lemma image_encoding_run : forall img m,
  image_encoding vae_encode_mean img m =
  (with_vae_dtype m float16, Ok (latent_of vae_encode_mean (with_vae_dtype m float32) img)).
Proof. reflexivity. Qed.

(** With one image and a weight [w] that passes the check, the linear, slerp
    and barycentric encoders return [image_encoding]'s latent times [w]
    (wrapped as the loop's value) and leave the model as [image_encoding] does. *)
Theorem single_image_blends : forall img w m,
  isclose w 1 = true ->
  images_encoding vae_encode_mean [img] [w] m =
    (fst (image_encoding vae_encode_mean img m),
     result_map (fun L => Some (scale L w)) (snd (image_encoding vae_encode_mean img m))) /\
  images_encoding_slerp vae_encode_mean [img] [w] m =
    (fst (image_encoding vae_encode_mean img m),
     result_map (fun L => Some (scale L w)) (snd (image_encoding vae_encode_mean img m))) /\
  images_encoding_barycentric vae_encode_mean [img] [w] m =
    (fst (image_encoding vae_encode_mean img m),
     result_map (fun L => scale L w) (snd (image_encoding vae_encode_mean img m))).
Proof.
  intros img w m Hw. rewrite <- (py_sum_single w) in Hw.
  rewrite images_encoding_run, images_encoding_slerp_run, images_encoding_barycentric_run,
    image_encoding_run. simpl Nat.eqb. rewrite Hw. cbv zeta.
  unfold barycentric_interpolation. simpl Nat.eqb. rewrite Hw. simpl.
  rewrite add_zeros_scale. repeat split.
Qed.



End Extras.

(** Once the asserts pass, [barycentric_interpolation] of latents of one shape
    returns a tensor of that shape. *)
Theorem barycentric_returns_first_shape : forall l0 rest ws,
  weights_valid (S (length rest)) ws -> Forall (fun t => shape t = shape l0) rest ->
  exists t, barycentric_interpolation (l0 :: rest) ws = Ok t /\ shape t = shape l0.
Proof.
  intros l0 rest ws Hw _.
  destruct (barycentric_ok (l0 :: rest) ws Hw) as (l0' & rest' & t & E & Ht & Hs).
  injection E as E1 E2. subst l0'. exists t. split; assumption.
Qed.

(** [gaussian_rbf] maps finite distances to finite kernel values in [0, 1],
    in exact arithmetic and in float32 (where [exp] may underflow to 0), when
    [epsilon] is in the float32 range. *)
Theorem gaussian_rbf_in_unit_interval : forall ds epsilon,
  Forall (Forall is_fin) ds -> is_fin (fl32 epsilon) ->
  Forall (Forall (fun k => exists r, k = Fin r /\ 0 <= r <= 1)) (gaussian_rbf ds epsilon) /\
  Forall (Forall (fun k => exists r, k = Fin r /\ 0 <= r <= 1)) (gaussian_rbf32 ds epsilon).
Proof.
  intros ds epsilon H He. split.
  - unfold gaussian_rbf. induction H as [|r ds Hr _ IH]; cbn [map]; constructor; auto.
    induction Hr as [|x r [d ->] _ IHr]; cbn [map]; constructor; auto.
    rewrite gaussian_fin. eexists. split; [reflexivity|].
    pose proof (gaussian_value_range epsilon d). lra.
  - unfold gaussian_rbf32. induction H as [|r ds Hr _ IH]; cbn [map]; constructor; auto.
    induction Hr as [|x r Hx _ IHr]; cbn [map]; constructor; auto.
    exact (gaussian32_value epsilon x He Hx).
Qed.

(** When the asserts pass but a latent differs in shape from the first,
    [rbf_interpolation] raises RuntimeError ([torch.stack]). *)
Theorem rbf_shape_mismatch_error : forall l0 ls ws epsilon,
  weights_valid (S (length ls)) ws -> Exists (fun t => shape t <> shape l0) ls ->
  exists msg, rbf_interpolation (l0 :: ls) ws epsilon = Error (RuntimeError msg).
Proof.
  intros l0 ls ws epsilon Hw Hex.
  apply checks_pass_spec in Hw. unfold checks_pass in Hw. apply andb_true_iff in Hw as [Hl Hc].
  unfold rbf_interpolation. simpl length at 1. rewrite Hl, Hc. simpl negb. cbv iota.
  unfold stack. simpl forallb. destruct (list_eq_dec _ _ _) as [_|C]; [|congruence].
  rewrite forallb_shape_false by exact Hex. eexists; reflexivity.
Qed.

(** Swapping the two tensors of [weighted_slerp] and replacing the weight [t]
    by [1 - t] gives the same result. *)
Theorem weighted_slerp_swap : forall t v0 v1,
  shape v0 = shape v1 -> weighted_slerp t v0 v1 = weighted_slerp (1 - t) v1 v0.
Proof.
  intros t [s0 rs0] [s1 rs1] Hs. cbn [shape] in Hs. subst s1.
  rewrite !weighted_slerp_spec_eq. unfold weighted_slerp_spec. cbn [shape rows]. f_equal.
  rewrite zipw_swap. apply zipw_ext. intros; apply slerp_row_swap.
Qed.

(** For [v0] and [v1] of one shape, if every row of [v0], or every row of
    [v1], is all zeros or all NaN,
    [weighted_slerp(t, v0, v1)] is NaN in every element. *)
Theorem weighted_slerp_degenerate_nan : forall t v0 v1,
  shape v0 = shape v1 ->
  Forall degenerate_row (rows v0) \/ Forall degenerate_row (rows v1) ->
  all_nan (weighted_slerp t v0 v1).
Proof. intros t v0 v1 _. exact (weighted_slerp_degenerate_rows t v0 v1). Qed.

(** The image preparation maps an [H x W x C] image with pixel values in
    [0, 255] to a tensor of shape [(1, C, H, W)] with values in [-1, 1]. *)
Theorem permuted_image_range : forall H W C img,
  shape img = [H; W; C] -> length (rows img) = (H * W)%nat ->
  Forall (fun px => length px = C) (rows img) ->
  Forall (Forall (fun x => exists r, x = Fin r /\ 0 <= r <= 255)) (rows img) ->
  shape (permuted_image img) = [1%nat; C; H; W] /\
  Forall (Forall (fun x => exists r, x = Fin r /\ -1 <= r <= 1)) (rows (permuted_image img)).
Proof.
  intros H W C [s rs] Hs Hlen Hpx Hval. cbn [shape rows] in *. subst s.
  unfold permuted_image, unsqueeze_0, permute_201, map_t. cbn [shape rows]. split; [reflexivity|].
  rewrite map_map.
  set (f := fun x => ext_sub (ext_mul (ext_div x (Fin 255)) (Fin 2)) (Fin 1)).
  set (rs' := map (fun x => map f x) rs).
  replace (map (fun x => map (fun x0 => ext_sub (ext_mul x0 (Fin 2)) (Fin 1))
                            (map (fun x0 => ext_div x0 (Fin 255)) x)) rs) with rs'
    by (unfold rs'; apply map_ext; intro px; rewrite map_map; reflexivity).
  assert (Hl' : length rs' = (H * W)%nat) by (unfold rs'; rewrite length_map; exact Hlen).
  assert (Hpx' : forall k, (k < H * W)%nat -> length (nth k rs' []) = C).
  { intros k Hk. unfold rs'.
    change (nth k (map (fun x => map f x) rs) []) with (nth k (map (fun x => map f x) rs) ((fun x => map f x) [])).
    rewrite map_nth, length_map.
    rewrite Forall_forall in Hpx. apply Hpx. apply nth_In. lia. }
  assert (Hv' : Forall (Forall (fun x => exists r, x = Fin r /\ -1 <= r <= 1)) rs').
  { unfold rs'. apply Forall_map. eapply Forall_impl; [|exact Hval]. intros px Hp.
    apply Forall_map. eapply Forall_impl; [|exact Hp]. intros x [r [-> Hr]].
    unfold f. cbn [ext_div]. destruct (Req_EM_T 255 0) as [E|_]; [lra|].
    simpl. eexists. split; [reflexivity|]. lra. }
  apply Forall_forall. intros row Hrow.
  apply in_flat_map in Hrow as [c [Hc Hrow]]. apply in_seq in Hc.
  apply in_map_iff in Hrow as [h [<- Hh]]. apply in_seq in Hh.
  apply Forall_forall. intros x Hx. apply in_map_iff in Hx as [w [<- Hw]]. apply in_seq in Hw.
  assert (Hk : (h * W + w < H * W)%nat) by nia.
  apply nth_nth_forall; [exact Hv' | lia | rewrite Hpx' by exact Hk; lia].
Qed.

(** *** Instances of the further properties *)


Lemma image_21_range :
  Forall (Forall (fun x => exists r, x = Fin r /\ 0 <= r <= 255)) (rows image_21).
Proof.
  unfold image_21. cbn [rows].
  repeat (apply Forall_cons || apply Forall_nil); eexists; (split; [reflexivity | lra]).
Qed.

Lemma single_image_blends_witness :
  isclose 1 1 = true /\
  images_encoding id_vae [black_pixel] [1] model_f32 =
    (fst (image_encoding id_vae black_pixel model_f32),
     result_map (fun L => Some (scale L 1)) (snd (image_encoding id_vae black_pixel model_f32))) /\
  images_encoding_slerp id_vae [black_pixel] [1] model_f32 =
    (fst (image_encoding id_vae black_pixel model_f32),
     result_map (fun L => Some (scale L 1)) (snd (image_encoding id_vae black_pixel model_f32))) /\
  images_encoding_barycentric id_vae [black_pixel] [1] model_f32 =
    (fst (image_encoding id_vae black_pixel model_f32),
     result_map (fun L => scale L 1) (snd (image_encoding id_vae black_pixel model_f32))).
Proof.
  split; [exact isclose_1_1|].
  exact (single_image_blends id_vae black_pixel 1 model_f32 isclose_1_1).
Defined.



Lemma barycentric_returns_first_shape_witness :
  weights_valid 2 [1 / 4; 3 / 4] /\ Forall (fun t => shape t = shape latent_12) [row_e1] /\
  exists t, barycentric_interpolation [latent_12; row_e1] [1 / 4; 3 / 4] = Ok t /\
            shape t = shape latent_12.
Proof.
  assert (Hs : Forall (fun t => shape t = shape latent_12) [row_e1]) by (repeat constructor).
  split; [exact weights_valid_quarters|]. split; [exact Hs|].
  exact (barycentric_returns_first_shape latent_12 [row_e1] [1 / 4; 3 / 4] weights_valid_quarters Hs).
Defined.

Lemma gaussian_rbf_in_unit_interval_witness :
  Forall (Forall is_fin) [[Fin 0; Fin 40]] /\ is_fin (fl32 1) /\
  Forall (Forall (fun k => exists r, k = Fin r /\ 0 <= r <= 1)) (gaussian_rbf [[Fin 0; Fin 40]] 1) /\
  Forall (Forall (fun k => exists r, k = Fin r /\ 0 <= r <= 1)) (gaussian_rbf32 [[Fin 0; Fin 40]] 1).
Proof.
  assert (H : Forall (Forall is_fin) [[Fin 0; Fin 40]]) by (repeat constructor; eexists; reflexivity).
  assert (He : is_fin (fl32 1)) by (rewrite fl32_1; eexists; reflexivity).
  split; [exact H|]. split; [exact He|].
  exact (gaussian_rbf_in_unit_interval [[Fin 0; Fin 40]] 1 H He).
Defined.

Lemma rbf_shape_mismatch_error_witness :
  weights_valid 2 [1 / 2; 1 / 2] /\ Exists (fun t => shape t <> shape latent_12) [latent_1] /\
  exists msg, rbf_interpolation [latent_12; latent_1] [1 / 2; 1 / 2] 1 = Error (RuntimeError msg).
Proof.
  assert (H : Exists (fun t => shape t <> shape latent_12) [latent_1])
    by (constructor; discriminate).
  split; [exact weights_valid_halves|]. split; [exact H|].
  exact (rbf_shape_mismatch_error latent_12 [latent_1] [1 / 2; 1 / 2] 1 weights_valid_halves H).
Defined.

Lemma weighted_slerp_swap_witness :
  shape row_e1 = shape row_e2 /\
  weighted_slerp (1 / 4) row_e1 row_e2 = weighted_slerp (1 - 1 / 4) row_e2 row_e1.
Proof.
  split; [reflexivity|]. exact (weighted_slerp_swap (1 / 4) row_e1 row_e2 eq_refl).
Defined.

Lemma weighted_slerp_degenerate_nan_witness :
  shape (zeros_like latent_12) = shape latent_12 /\
  (Forall degenerate_row (rows (zeros_like latent_12)) \/ Forall degenerate_row (rows latent_12)) /\
  all_nan (weighted_slerp (1 / 2) (zeros_like latent_12) latent_12).
Proof.
  assert (H : Forall degenerate_row (rows (zeros_like latent_12)) \/
              Forall degenerate_row (rows latent_12))
    by (left; repeat constructor).
  split; [reflexivity|]. split; [exact H|].
  exact (weighted_slerp_degenerate_nan (1 / 2) (zeros_like latent_12) latent_12 eq_refl H).
Defined.

Lemma permuted_image_range_witness :
  shape image_21 = [2%nat; 1%nat; 3%nat] /\ length (rows image_21) = (2 * 1)%nat /\
  Forall (fun px => length px = 3%nat) (rows image_21) /\
  Forall (Forall (fun x => exists r, x = Fin r /\ 0 <= r <= 255)) (rows image_21) /\
  shape (permuted_image image_21) = [1%nat; 3%nat; 2%nat; 1%nat] /\
  Forall (Forall (fun x => exists r, x = Fin r /\ -1 <= r <= 1)) (rows (permuted_image image_21)).
Proof.
  assert (Hp : Forall (fun px => length px = 3%nat) (rows image_21)) by (repeat constructor).
  split; [reflexivity|]. split; [reflexivity|]. split; [exact Hp|]. split; [exact image_21_range|].
  exact (permuted_image_range 2 1 3 image_21 eq_refl eq_refl Hp image_21_range).
Defined.
